(** * fioctl.utils: stream merge, retry with backoff, rate-limited executor

  A shallow embedding of [merge_streams], [retry] and [exec_stream] from
  [fioctl/utils.py], and of [parallelize], [chunker], [stream_fs] and the
  converters of [ListType] and [UpdateType].

  Conventions used throughout:
  - a Python iterator over finitely many items is the list of the items it
    has not produced yet, and [next(it, None)] takes the first of them;
  - a generator is the list of values it yields, in yield order, paired
    with the way it ends (normal end or an exception);
  - Python truthiness of an item is a parameter [truthy] of the element
    type; [None] (an exhausted iterator) is falsy;
  - functions passed in (comparison, callable, sync) are functions of their
    arguments that return or raise; time is in seconds, as exact rationals. *)

From Equations Require Import Equations.
From Stdlib Require Import List Arith ZArith Lia Bool Sorted Permutation.
From Stdlib Require Import QArith Qminmax Qround Qpower.
From Stdlib Require Import String Ascii.
From stdpp Require Import gmap strings.
Import ListNotations.
Close Scope Q_scope.
Open Scope nat_scope.

(** What a Python call does: return a value or raise. *)
Inductive outcome (V X : Type) : Type :=
| Returns (v : V)
| Raises (x : X).
Arguments Returns {V X}.
Arguments Raises {V X}.

(** ** merge_streams *)

Module Merge.

Section Generic.
Context {T E : Type}.

(** Truthiness of a stream item ([bool(x)] in Python). *)
Variable truthy : T -> bool.

(** [comparison(x, y)]: either raises ([inl e]) or returns a value whose
    truthiness is the boolean ([inr b]). *)
Variable comparison : T -> T -> E + bool.

(** [fetch = lambda stream: next(stream, None)]: the head that was read and
    the iterator after the read. *)
Definition fetch (stream : list T) : option T * list T :=
  match stream with
  | [] => (None, [])
  | x :: rest => (Some x, rest)
  end.

(** Truthiness of a head variable: [None] is falsy. *)
Definition is_true (head : option T) : bool :=
  match head with
  | Some x => truthy x
  | None => false
  end.

(** State of the generator when the [while] loop is left. *)
Inductive loop_end : Type :=
| LoopExit (head1 : option T) (stream1 : list T)
           (head2 : option T) (stream2 : list T)
| LoopRaised (e : E).

(** A generator that yields [x] and then goes on as [r]. *)
Definition yield_first {Z : Type} (x : T) (r : list T * Z) : list T * Z :=
  (x :: fst r, snd r).

Definition weight (head : option T) (stream : list T) : nat :=
  match head with Some _ => 1 | None => 0 end + List.length stream.

(** [while head1 and head2: ...]. The result is what the loop yields and
    the state in which the loop is left. *)
Equations? merge_loop (head1 : option T) (stream1 : list T)
                      (head2 : option T) (stream2 : list T)
  : list T * loop_end
  by wf (weight head1 stream1 + weight head2 stream2) lt :=
merge_loop (Some h1) s1 (Some h2) s2 with truthy h1 && truthy h2 => {
  | true with comparison h1 h2 => {
      | inr true :=
          yield_first h1 (merge_loop (fst (fetch s1)) (snd (fetch s1)) (Some h2) s2)
      | inr false :=
          yield_first h2 (merge_loop (Some h1) s1 (fst (fetch s2)) (snd (fetch s2)))
      | inl e := ([], LoopRaised e) }
  | false := ([], LoopExit (Some h1) s1 (Some h2) s2) };
merge_loop h1 s1 h2 s2 := ([], LoopExit h1 s1 h2 s2).
Proof.
  all: unfold weight; destruct s1, s2; simpl; lia.
Qed.

(** How the generator ends: normally, leaving [rest1] and [rest2] unread
    in the two input iterators, or with the comparison's exception. *)
Inductive merge_end : Type :=
| Finished (rest1 rest2 : list T)
| Raised (e : E).

(** [if head: yield head; for head in stream: yield head]: what is yielded
    and what is left of the iterator. The [for] loop does not test the
    truthiness of the items it yields. *)
Definition flush (head : option T) (stream : list T) : list T * list T :=
  match head with
  | Some x => if truthy x then (x :: stream, []) else ([], stream)
  | None => ([], stream)
  end.

(** The generator from a given loop state on. *)
Definition merge_from (head1 : option T) (stream1 : list T)
                      (head2 : option T) (stream2 : list T)
  : list T * merge_end :=
  match merge_loop head1 stream1 head2 stream2 with
  | (out, LoopRaised e) => (out, Raised e)
  | (out, LoopExit h1 s1 h2 s2) =>
      let (out1, rest1) := flush h1 s1 in
      let (out2, rest2) := flush h2 s2 in
      (out ++ out1 ++ out2, Finished rest1 rest2)
  end.

(** [merge_streams(stream, other_stream, comparison)]. *)
Definition merge_streams (stream other_stream : list T)
  : list T * merge_end :=
  let (head1, stream) := fetch stream in
  let (head2, other_stream) := fetch other_stream in
  merge_from head1 stream head2 other_stream.

(** The loop variables at the top of an iteration of the [while] loop. *)
Record cursor : Type := Cursor {
  head1 : option T;
  stream1 : list T;
  head2 : option T;
  stream2 : list T
}.

(** The loop variables when the loop is first entered. *)
Definition enter (stream other_stream : list T) : cursor :=
  Cursor (fst (fetch stream)) (snd (fetch stream))
         (fst (fetch other_stream)) (snd (fetch other_stream)).

(** [reaches c out c']: started at [c], the [while] loop yields [out] and
    is then at the top of an iteration with the variables [c']. *)
Inductive reaches : cursor -> list T -> cursor -> Prop :=
| reaches_here c :
    reaches c [] c
| reaches_left h1 s1 h2 s2 out c :
    truthy h1 = true -> truthy h2 = true ->
    comparison h1 h2 = inr true ->
    reaches (Cursor (fst (fetch s1)) (snd (fetch s1)) (Some h2) s2) out c ->
    reaches (Cursor (Some h1) s1 (Some h2) s2) (h1 :: out) c
| reaches_right h1 s1 h2 s2 out c :
    truthy h1 = true -> truthy h2 = true ->
    comparison h1 h2 = inr false ->
    reaches (Cursor (Some h1) s1 (fst (fetch s2)) (snd (fetch s2))) out c ->
    reaches (Cursor (Some h1) s1 (Some h2) s2) (h2 :: out) c.

End Generic.

Arguments Cursor {T}.
Arguments head1 {T}.
Arguments stream1 {T}.
Arguments head2 {T}.
Arguments stream2 {T}.
Arguments LoopExit {T E}.
Arguments LoopRaised {T E}.
Arguments Finished {T E}.
Arguments Raised {T E}.

(** [merged precedes p1 p2 r]: the generator [r] ends normally with both
    inputs read to the end, what it yields is a rearrangement of the items
    [p1] and [p2], and if [p1] and [p2] are sorted then so is what it
    yields, with nothing put in front of an item that precedes both. *)
Definition merged {T E : Type} (precedes : T -> T -> Prop)
    (p1 p2 : list T) (r : list T * @merge_end T E) : Prop :=
  exists out,
    r = (out, Finished [] []) /\
    Permutation out (p1 ++ p2) /\
    (Sorted precedes p1 -> Sorted precedes p2 ->
     Sorted precedes out /\
     forall x, HdRel precedes x p1 -> HdRel precedes x p2 -> HdRel precedes x out).

(** Records as the callers of [merge_streams] pass them: dictionaries from
    field names to numbers. The empty dictionary is falsy. *)
Definition record_truthy (x : gmap string Z) : bool :=
  negb (bool_decide (x = ∅)).

(** The default [comparison=lambda x, y: x["id"] <= y["id"]]; a record
    without the field raises [KeyError]. *)
Definition by_id (x y : gmap string Z) : string + bool :=
  match x !! "id"%string, y !! "id"%string with
  | Some a, Some b => inr (a <=? b)%Z
  | _, _ => inl "KeyError"%string
  end.

(** A record with just an id. *)
Definition with_id (n : Z) : gmap string Z := {[ "id"%string := n ]}.

(** Numbers as stream items: zero is falsy. *)
Definition nonzero (n : Z) : bool := negb (n =? 0)%Z.

(** [lambda x, y: x <= y] and [lambda x, y: x < y] on numbers; neither
    raises. *)
Definition at_most (x y : Z) : unit + bool := inr (x <=? y)%Z.
Definition below (x y : Z) : unit + bool := inr (x <? y)%Z.

End Merge.

(** ** retry *)

Module Retry.

(** What a call hands back to its caller: [None] (a function that ends
    without a [return] statement) or a value. *)
Inductive returned (V : Type) : Type :=
| PyNone
| PyValue (v : V).
Arguments PyNone {V}.
Arguments PyValue {V}.

(** [**kwargs] as [retry] sees it: the entry under the key ['attempt'], if
    there is one, and all other entries. *)
Record kwargs (K : Type) : Type := {
  kw_attempt : option Z;
  kw_rest : K
}.
Arguments kw_attempt {K}.
Arguments kw_rest {K}.
Arguments Build_kwargs {K}.

(** The effects of [retry] a caller can observe, in program order. *)
Inductive effect (X : Type) : Type :=
| Invoked                 (* the callable was entered *)
| Echoed (x : X)          (* click.echo of the notice for exception x *)
| Slept (seconds : Q).    (* time.sleep(seconds) *)
Arguments Invoked {X}.
Arguments Echoed {X}.
Arguments Slept {X}.

(** [min(.5 * math.pow(2, attempt), 4)], in seconds. *)
Definition backoff (attempt : Z) : Q :=
  Qmin ((1 # 2) * (2 ^ attempt))%Q 4%Q.

Section Generic.
Context {A K St V X : Type}.

(** The wrapped callable: positional arguments, keyword arguments (without
    ['attempt'], which [retry] pops), and the state of the world the
    callable reads and changes. *)
Variable callable : A -> K -> St -> outcome V X * St.

(** The world: the state the callable acts on and the effects so far. *)
Record world : Type := {
  cstate : St;
  effects : list (effect X)
}.

Definition record (e : effect X) (w : world) : world :=
  {| cstate := cstate w; effects := effects w ++ [e] |}.

(** [kwargs.pop('attempt', 0)]. *)
Definition pop_attempt (kw : kwargs K) : Z * kwargs K :=
  (default 0%Z (kw_attempt kw), {| kw_attempt := None; kw_rest := kw_rest kw |}).

(** [retry(callable, *args, **kwargs)]. The recursion of the source has no
    bound, so the model counts the invocations it may still make: with
    [fuel] invocations used up and the callable still failing the result is
    [None], "still running". A result [Some o] is how the call ended. *)
Fixpoint retry (fuel : nat) (args : A) (kw : kwargs K) (w : world)
  : option (outcome (returned V) X) * world :=
  match fuel with
  | O => (None, w)
  | S fuel' =>
      let (attempt, kw) := pop_attempt kw in
      let w := record Invoked w in
      match callable args (kw_rest kw) (cstate w) with
      | (Returns _, s') =>
          (* the value of the call is dropped; the function ends *)
          (Some (Returns PyNone), {| cstate := s'; effects := effects w |})
      | (Raises x, s') =>
          let w := {| cstate := s'; effects := effects w |} in
          let w := record (Echoed x) w in
          let w := record (Slept (backoff attempt)) w in
          let kw := {| kw_attempt := Some (attempt + 1)%Z; kw_rest := kw_rest kw |} in
          match retry fuel' args kw w with
          | (Some (Returns _), w') => (Some (Returns PyNone), w')
          | other => other
          end
      end
  end.

(** Number of times the callable was entered. *)
Definition invocations (w : world) : nat :=
  List.length (List.filter (fun e => match e with Invoked => true | _ => false end)
                           (effects w)).

(** The sleeps, in order. *)
Definition sleeps (w : world) : list Q :=
  omap (fun e => match e with Slept q => Some q | _ => None end) (effects w).

(** The callable, started in state [s], raises [n] times in a row and then
    returns [v]. *)
Inductive succeeds_after (args : A) (rest : K) : nat -> St -> V -> Prop :=
| succeeds_now s v s' :
    callable args rest s = (Returns v, s') ->
    succeeds_after args rest 0 s v
| succeeds_later n s x s' v :
    callable args rest s = (Raises x, s') ->
    succeeds_after args rest n s' v ->
    succeeds_after args rest (S n) s v.

(** The callable raises whenever it is invoked, whatever the state. *)
Definition always_raises (args : A) (rest : K) : Prop :=
  forall s, exists x s', callable args rest s = (Raises x, s').

End Generic.

Arguments world : clear implicits.
Arguments Build_world {St X}.

(** A callable that fails on its first [n] invocations and then returns
    the number of the invocation; its state counts the invocations. *)
Definition flaky (n : nat) (_ : unit) (_ : unit) (calls : nat)
  : outcome nat string * nat :=
  if calls <? n then (Raises "ConnectionError"%string, S calls)
  else (Returns (S calls), S calls).

(** A callable that never returns normally. *)
Definition broken (_ : unit) (_ : unit) (calls : nat)
  : outcome nat string * nat :=
  (Raises "ConnectionError"%string, S calls).

Definition no_kwargs : kwargs unit := {| kw_attempt := None; kw_rest := tt |}.

Definition fresh : world nat string := {| cstate := 0; effects := [] |}.

End Retry.

(** ** exec_stream *)

Module ExecStream.

(** The rate limiter as [exec_stream] uses it: built from two numbers, in
    the call the values of [capacity] and [rate] in this order, and asked
    for one token of the bucket "stream" at the current time. *)
Class RateLimiter (L : Type) : Type := {
  Limiter : Q -> Q -> L;
  consume : L -> Q -> bool * L
}.

(** What the environment decides during one iteration of the control loop:
    how long the blocking calls take and which tasks the pool has finished. *)
Record moment : Type := {
  wait_time : Q;          (* seconds blocked in wait(..., FIRST_COMPLETED) *)
  completed : list nat;   (* the futures that wait reports done, as the for loop visits them *)
  pull_time : Q;          (* seconds taken by next(iterable, None) *)
  drained : list nat      (* the order in which the final wait's done set is visited *)
}.

(** An iteration in which nothing takes time and no order is prescribed. *)
Definition idle : moment :=
  {| wait_time := 0; completed := []; pull_time := 0; drained := [] |}.

(** How the generator ends: its input is used up, or an exception leaves it. *)
Inductive ending (X : Type) : Type :=
| Exhausted
| Failed (x : X).
Arguments Exhausted {X}.
Arguments Failed {X}.

Section Generic.
Context {Op R X L : Type} `{RateLimiter L}.

(** Truthiness of an operation. *)
Variable truthy : Op -> bool.

(** [callable(operation)]. *)
Variable callable : Op -> outcome R X.

(** Truthiness of [sync(operation)]. *)
Variable sync : Op -> bool.

(** What the control thread does, in program order. *)
Inductive event : Type :=
| Consumed (granted : bool)        (* limiter.consume("stream", 1) *)
| Slept (seconds : Q)              (* time.sleep(1.0 / rate) *)
| Pulled (operation : option Op)   (* next(iterable, None) *)
| Called (operation : Op)          (* execute(operation) on the control thread *)
| Submitted (id : nat) (operation : Op).   (* executor.submit(execute, operation) *)

(** The variables of the generator. A future is known by the number of the
    submission that created it; [futures] maps the futures in the set to the
    operation each one runs. *)
Record state : Type := {
  limiter : L;
  futures : gmap nat Op;
  issued : nat;
  now : Q;
  trace : list event
}.

Definition log (e : event) (st : state) : state :=
  {| limiter := limiter st; futures := futures st; issued := issued st;
     now := now st; trace := trace st ++ [e] |}.

Definition advance (seconds : Q) (st : state) : state :=
  {| limiter := limiter st; futures := futures st; issued := issued st;
     now := Qred (now st + seconds); trace := trace st |}.

Definition with_limiter (l : L) (st : state) : state :=
  {| limiter := l; futures := futures st; issued := issued st;
     now := now st; trace := trace st |}.

Definition with_futures (fs : gmap nat Op) (st : state) : state :=
  {| limiter := limiter st; futures := fs; issued := issued st;
     now := now st; trace := trace st |}.

(** [execute(operation)]. *)
Definition execute (operation : Op) : outcome (Op * R) X :=
  match callable operation with
  | Returns r => Returns (operation, r)
  | Raises x => Raises x
  end.

(** [for future in done: yield future.result()]: the pairs yielded, and the
    exception that ends the loop early, if a task raised. *)
Fixpoint collect (done : list Op) : list (Op * R) * option X :=
  match done with
  | [] => ([], None)
  | operation :: rest =>
      match execute operation with
      | Returns result => let (ys, e) := collect rest in (result :: ys, e)
      | Raises x => ([], Some x)
      end
  end.

(** The futures of the set that a schedule names, each once, in the
    schedule's order. *)
Definition named (choice : list nat) (fs : gmap nat Op) : list (nat * Op) :=
  omap (fun id => (fun operation => (id, operation)) <$> fs !! id)
       (remove_dups choice).

(** [done] of [wait(futures, return_when=FIRST_COMPLETED)]. The call blocks
    until a future of the set is done, so on a set that is not empty a
    schedule that names none is read as "the first future in the set's
    enumeration finishes". On the empty set the call returns at once with
    nothing done. *)
Definition first_completed (choice : list nat) (fs : gmap nat Op)
  : list (nat * Op) :=
  match named choice fs with
  | [] => take 1 (map_to_list fs)
  | done => done
  end.

(** [done] of [wait(futures)]: every future of the set, visited in the
    schedule's order as far as the schedule names them. *)
Definition all_completed (choice : list nat) (fs : gmap nat Op)
  : list (nat * Op) :=
  let first := named choice fs in
  first ++ map_to_list (fs ∖ list_to_map first).

(** [done] is a list of futures of the set, none of them twice. *)
Definition drawn_from (done : list (nat * Op)) (fs : gmap nat Op) : Prop :=
  NoDup (done.*1) /\
  forall id operation, (id, operation) ∈ done -> fs !! id = Some operation.

(** What a part of the loop body leaves behind. *)
Inductive step : Type :=
| Continue (st : state)
| Stop (st : state) (how : ending X).

(** [rate] of the call, for the sleep. *)
Variable rate : Q.

(** The block under [if not limiter.consume("stream", 1)], with the call of
    the limiter. *)
Definition throttle (env : moment) (st : state) : list (Op * R) * step :=
  let (granted, l) := consume (limiter st) (now st) in
  let st := log (Consumed granted) (with_limiter l st) in
  if granted then ([], Continue st)
  else
    let start := Qfloor (now st) in
    let done := first_completed (completed env) (futures st) in
    let st := advance (wait_time env) st in
    match collect (done.*2) with
    | (ys, Some x) => (ys, Stop st (Failed x))
    | (ys, None) =>
        let st := with_futures (futures st ∖ list_to_map done) st in
        let st :=
          if (Qfloor (now st) - start <? 1)%Z
          then log (Slept (1 / rate)) (advance (1 / rate) st)
          else st in
        (ys, Continue st)
    end.

(** The block under [if not operation]: what is yielded and how the
    generator ends. *)
Definition drain (env : moment) (st : state) : list (Op * R) * ending X :=
  let done := all_completed (drained env) (futures st) in
  match collect (done.*2) with
  | (ys, Some x) => (ys, Failed x)
  | (ys, None) => (ys, Exhausted)
  end.

(** [futures.add(executor.submit(execute, operation))]. *)
Definition submit (operation : Op) (st : state) : state :=
  log (Submitted (issued st) operation)
      {| limiter := limiter st;
         futures := <[issued st := operation]> (futures st);
         issued := S (issued st);
         now := now st; trace := trace st |}.

(** The rest of the body for an operation that is truthy. *)
Definition dispatch (operation : Op) (st : state) : list (Op * R) * step :=
  if sync operation then
    let st := log (Called operation) st in
    match execute operation with
    | Returns result => ([result], Continue st)
    | Raises x => ([], Stop st (Failed x))
    end
  else ([], Continue (submit operation st)).

(** [operation = next(iterable, None)]. *)
Definition pull (operation : option Op) (env : moment) (st : state) : state :=
  advance (pull_time env) (log (Pulled operation) st).

(** A run of the generator for a consumer that takes everything it yields. *)
Record run : Type := {
  yielded : list (Op * R);      (* the pairs, in the order they are yielded *)
  how : ending X;               (* how the generator ends *)
  final : state;                (* the variables when it ends *)
  unread : list Op;             (* what was never read from the iterable *)
  snapshots : list state        (* the variables at the end of each full iteration *)
}.

Definition finish (ys : list (Op * R)) (st : state) (e : ending X)
                  (rest : list Op) : run :=
  {| yielded := ys; how := e; final := st; unread := rest; snapshots := [] |}.

Definition after (ys : list (Op * R)) (st : state) (r : run) : run :=
  {| yielded := ys ++ yielded r; how := how r; final := final r;
     unread := unread r; snapshots := st :: snapshots r |}.

(** [while True: ...]. Every iteration reads one item of the iterable, so
    the loop is a recursion on what is left of it. *)
Fixpoint exec_loop (iterable : list Op) (envs : list moment) (st : state) : run :=
  let env := hd idle envs in
  match throttle env st with
  | (ys, Stop st e) => finish ys st e iterable
  | (ys, Continue st) =>
      match iterable with
      | [] =>
          let st := pull None env st in
          let (zs, e) := drain env st in
          finish (ys ++ zs) st e []
      | operation :: rest =>
          let st := pull (Some operation) env st in
          if truthy operation then
            match dispatch operation st with
            | (zs, Stop st e) => finish (ys ++ zs) st e rest
            | (zs, Continue st) => after (ys ++ zs) st (exec_loop rest (tl envs) st)
            end
          else
            let (zs, e) := drain env st in
            finish (ys ++ zs) st e rest
      end
  end.

(** The state in which the loop is entered. *)
Definition on_entry (capacity : nat) : state :=
  {| limiter := Limiter (inject_Z (Z.of_nat capacity)) rate;
     futures := ∅; issued := 0; now := 0; trace := [] |}.

(** [exec_stream(callable, iterable, sync, capacity, rate)]; the pool is
    created with [max_workers=capacity]. *)
Definition exec_stream (iterable : list Op) (capacity : nat)
                       (envs : list moment) : run :=
  exec_loop iterable envs (on_entry capacity).

(** The operations read from the iterable that are truthy, in order. *)
Definition pulled_truthy (events : list event) : list Op :=
  omap (fun e => match e with
                 | Pulled (Some operation) =>
                     if truthy operation then Some operation else None
                 | _ => None
                 end) events.

(** The applications of the callable that the control thread makes or hands
    to the pool, in order, each with the way it is made: [true] for a call
    on the control thread, [false] for a submission. *)
Definition applications (events : list event) : list (Op * bool) :=
  omap (fun e => match e with
                 | Called operation => Some (operation, true)
                 | Submitted _ operation => Some (operation, false)
                 | _ => None
                 end) events.

(** The number of tokens the limiter has handed out. *)
Definition granted (events : list event) : nat :=
  List.length (List.filter (fun e => match e with
                                     | Consumed true => true
                                     | _ => false
                                     end) events).

(** The callable returns on this operation. *)
Definition succeeds (operation : Op) : Prop :=
  exists r, callable operation = Returns r.

End Generic.

(** Modelled from the spec: the [token_bucket] package ([Limiter],
    [MemoryStorage]) is not among the sources. The spec gives its contract:
    a bucket of at most [capacity] tokens, refilled at [rate] tokens per
    second; [consume] returns true and takes the cost out when enough
    tokens are there, and otherwise returns false and leaves the state as it
    is; the first call finds the bucket full. *)
Record bucket : Type := {
  burst : Q;              (* capacity *)
  refill : Q;             (* rate, tokens per second *)
  tokens : Q;             (* tokens at the time of the last withdrawal *)
  stamp : option Q        (* time of the last withdrawal *)
}.

Definition bucket_new (capacity rate : Q) : bucket :=
  {| burst := capacity; refill := rate; tokens := capacity; stamp := None |}.

Definition available (b : bucket) (time : Q) : Q :=
  match stamp b with
  | None => burst b
  | Some t => Qmin (burst b) (tokens b + refill b * (time - t))%Q
  end.

Definition bucket_consume (b : bucket) (time : Q) : bool * bucket :=
  let have := Qred (available b time) in
  if Qle_bool 1 have
  then (true, {| burst := burst b; refill := refill b;
                 tokens := Qred (have - 1); stamp := Some time |})
  else (false, b).

#[export] Instance token_bucket : RateLimiter bucket :=
  {| Limiter := bucket_new; consume := bucket_consume |}.

(** Sample operations: paths to upload. The empty path is falsy, as the
    empty string is in Python. *)
Definition path_truthy (path : string) : bool :=
  negb (String.eqb path EmptyString).

(** A sample callable: the size of the upload, with one path that cannot be
    read. *)
Definition upload (path : string) : outcome nat string :=
  if String.eqb path "locked" then Raises "PermissionError"%string
  else Returns (String.length path).

(** A sample [sync] predicate: the manifest goes first, on its own. *)
Definition is_manifest (path : string) : bool := String.eqb path "manifest".

(** The default [sync=lambda _: False]. *)
Definition never_sync (path : string) : bool := false.

(** Iterations in which reading the next operation takes [seconds]. *)
Definition slow_input (seconds : Q) : moment :=
  {| wait_time := 0; completed := []; pull_time := seconds; drained := [] |}.

End ExecStream.

(** ** parallelize *)

Module Parallelize.
Import ExecStream.

Section Generic.
Context {Op R X : Type}.

(** [callable(item)]. *)
Variable callable : Op -> outcome R X.

(** What the iterator that [executor.map(callable, iterable)] returns gives
    to a consumer that takes everything: the results in the order of the
    items, up to the first item whose task raised, whose exception then
    leaves the iterator. *)
Fixpoint results (iterable : list Op) : list R * ending X :=
  match iterable with
  | [] => ([], Exhausted)
  | item :: rest =>
      match callable item with
      | Returns r => let (rs, e) := results rest in (r :: rs, e)
      | Raises x => ([], Failed x)
      end
  end.

(** [parallelize(callable, iterable, capacity)]: [executor.map] submits a
    task for every item of the iterable when it is called, the [with] block
    waits for all of them, and the iterator of the results is returned. *)
Definition parallelize (iterable : list Op) (capacity : nat)
  : list R * ending X :=
  results iterable.

End Generic.
End Parallelize.

(** ** chunker *)

Module Chunker.

(** A value together with the fact that it is the value: lets a definition
    keep what a test on an intermediate result has found. *)
Definition inspect {A : Type} (a : A) : {b : A | a = b} := exist _ a eq_refl.

Section Generic.
Context {T : Type}.

(** [chunker(iterable, n)] for [n >= 0]: [it = iter(iterable)], then
    [chunk = tuple(itertools.islice(it, n))] again and again, the first [n]
    items still in the iterator, until a chunk is empty. The result is the
    list of the chunks yielded. *)
Equations? chunker (it : list T) (n : nat) : list (list T)
  by wf (List.length it) lt :=
chunker it n with inspect (take n it) => {
  | exist _ [] _ := [];
  | exist _ (x :: chunk) Hchunk := (x :: chunk) :: chunker (drop n it) n }.
Proof.
  rewrite length_drop.
  destruct n as [|n]; [discriminate Hchunk|].
  destruct it as [|y it]; [discriminate Hchunk|]. simpl. lia.
Qed.

End Generic.

End Chunker.

(** ** ListType and UpdateType *)

Module Params.

(** Strings are sequences of characters with codes below 256. *)

(** [str.isspace] on these characters: tab, line feed, vertical tab, form
    feed, carriage return, the four separators 28 to 31, the space, the next
    line character 133 and the no-break space 160. *)
Definition py_isspace (c : ascii) : bool :=
  let n := nat_of_ascii c in
  ((9 <=? n) && (n <=? 13)) || ((28 <=? n) && (n <=? 32))
  || (n =? 133) || (n =? 160).

(** [sep.join(pieces)]. *)
Fixpoint join (sep : string) (pieces : list string) : string :=
  match pieces with
  | [] => EmptyString
  | [piece] => piece
  | piece :: rest => (piece ++ sep ++ join sep rest)%string
  end.

(** [s.split(sep)] for a separator of one character: the pieces between
    the separators, at least one piece. *)
Fixpoint split (sep : ascii) (s : string) : list string :=
  match s with
  | EmptyString => [EmptyString]
  | String c s' =>
      if Ascii.eqb c sep then EmptyString :: split sep s'
      else match split sep s' with
           | piece :: pieces => String c piece :: pieces
           | [] => [String c EmptyString]
           end
  end.

(** Number of occurrences of a character. *)
Fixpoint count (c : ascii) (s : string) : nat :=
  match s with
  | EmptyString => 0
  | String c' s' => (if Ascii.eqb c' c then 1 else 0) + count c s'
  end.

Section Strip.

(** Which characters [strip] takes for whitespace. *)
Variable isspace : ascii -> bool.

Fixpoint lstrip (s : string) : string :=
  match s with
  | EmptyString => EmptyString
  | String c s' => if isspace c then lstrip s' else s
  end.

Fixpoint rstrip (s : string) : string :=
  match s with
  | EmptyString => EmptyString
  | String c s' =>
      match rstrip s' with
      | EmptyString => if isspace c then EmptyString else String c EmptyString
      | kept => String c kept
      end
  end.

(** [s.strip()]. *)
Definition strip (s : string) : string := rstrip (lstrip s).

(** The string begins with whitespace; the string ends with whitespace. *)
Definition begins_with_space (s : string) : bool :=
  match s with
  | EmptyString => false
  | String c _ => isspace c
  end.

Fixpoint ends_with_space (s : string) : bool :=
  match s with
  | EmptyString => false
  | String c EmptyString => isspace c
  | String _ s' => ends_with_space s'
  end.

(** The value a click parameter converter is given: a list, or the text of
    the command line. *)
Inductive param : Type :=
| PList (items : list string)
| PStr (text : string).

(** [ListType.convert(value, _param, _ctx)]. *)
Definition list_convert (value : param) : list string :=
  match value with
  | PList items => items
  | PStr text => List.map strip (split "," text)
  end.

(** How [UpdateType.convert] fails: the unpacking of a tuple that does not
    have two items raises [ValueError]; whatever [nested_set] raises goes
    through. *)
Inductive update_error (X : Type) : Type :=
| ValueError
| NestedSetError (x : X).

(** [[tuple(val.strip().split("=")) for val in value.split(",")]]. *)
Definition update_tuples (text : string) : list (list string) :=
  List.map (fun val => split "=" (strip val)) (split "," text).

(** [[(column.split("."), update) for (column, update) in update]]: a tuple
    that is not a pair cannot be unpacked. *)
Fixpoint nested_update {X : Type} (tuples : list (list string))
  : outcome (list (list string * string)) (update_error X) :=
  match tuples with
  | [] => Returns []
  | [column; update] :: rest =>
      match nested_update rest with
      | Returns pairs => Returns ((split "." column, update) :: pairs)
      | Raises e => Raises e
      end
  | _ :: _ => Raises (ValueError X)
  end.

Section Convert.
Context {D X : Type}.

(** [nested_set(update, nested_key, val)] of [fioctl.config], which is not
    among these sources: it changes the dictionary it is given, or raises. *)
Variable nested_set : D -> list string -> string -> outcome D X.

(** [for (nested_key, val) in nested_update: nested_set(update, nested_key, val)]. *)
Fixpoint apply_updates (update : D) (pairs : list (list string * string))
  : outcome D (update_error X) :=
  match pairs with
  | [] => Returns update
  | (nested_key, val) :: rest =>
      match nested_set update nested_key val with
      | Returns update' => apply_updates update' rest
      | Raises x => Raises (NestedSetError X x)
      end
  end.

(** [UpdateType.convert(value, _param, _ctx)]; [empty] is the dictionary
    [{}] it starts from. *)
Definition update_convert (empty : D) (text : string)
  : outcome D (update_error X) :=
  match nested_update (update_tuples text) with
  | Raises e => Raises e
  | Returns pairs => apply_updates empty pairs
  end.

End Convert.
End Strip.

Arguments ValueError {X}.
Arguments NestedSetError {X}.

(** A stand-in for [nested_set] that keeps the updates in the order they
    are made. *)
Definition record_update (update : list (list string * string))
    (nested_key : list string) (val : string)
  : outcome (list (list string * string)) unit :=
  Returns (update ++ [(nested_key, val)]).

End Params.

(** ** stream_fs *)

Module StreamFs.

#[local] Set Warnings "-register-all".

(** What the file system holds at a path, as [os.walk] sees it. *)
Inductive node : Type :=
| File
| Locked
| Link (target : node)
| Dir (entries : list (string * node)).

(** [File] is anything that is not a directory, [Locked] a directory that
    [os.scandir] cannot list, [Link] a symbolic link, and the entries of a
    [Dir] are in the order [os.scandir] gives them. *)

(** [entry.is_dir()], which follows symbolic links. *)
Fixpoint is_dir (n : node) : bool :=
  match n with
  | File => false
  | Locked => true
  | Link target => is_dir target
  | Dir _ => true
  end.

(** [os.path.islink]. *)
Definition islink (n : node) : bool :=
  match n with
  | Link _ => true
  | _ => false
  end.

Definition startswith_sep (s : string) : bool :=
  match s with
  | EmptyString => false
  | String c _ => Ascii.eqb c "/"
  end.

Fixpoint endswith_sep (s : string) : bool :=
  match s with
  | EmptyString => false
  | String c EmptyString => Ascii.eqb c "/"
  | String _ s' => endswith_sep s'
  end.

(** [os.path.join(a, b)] of [posixpath]: a second part that begins with the
    separator replaces the first. *)
Definition path_join (a b : string) : string :=
  if startswith_sep b then b
  else if (String.length a =? 0) || endswith_sep a then (a ++ b)%string
  else (a ++ "/" ++ b)%string.

(** The names of the entries that [keep] holds for. *)
Definition names (keep : node -> bool) (entries : list (string * node))
  : list string :=
  List.map fst (List.filter (fun e => keep (snd e)) entries).

(** [os.walk(top)] with its defaults, as the Python library documents it:
    top down, a directory's triple before those of its subdirectories;
    directories that cannot be listed give no triple; subdirectories that
    are symbolic links are named in their parent's triple and not
    entered. *)
Fixpoint walk (top : string) (n : node)
  : list (string * list string * list string) :=
  match n with
  | File => []
  | Locked => []
  | Link target => walk top target
  | Dir entries =>
      (top, names is_dir entries, names (fun c => negb (is_dir c)) entries)
      :: List.flat_map
           (fun '(name, child) =>
              if is_dir child && negb (islink child)
              then walk (path_join top name) child
              else [])
           entries
  end.

(** What one triple of [os.walk] makes [stream_fs] yield. *)
Definition listing (triple : string * list string * list string)
  : list (string * string) :=
  let '(directory, subdirs, files) := triple in
  List.map (fun folder => ("d"%string, path_join directory folder)) subdirs
  ++ List.map (fun f => ("f"%string, path_join directory f)) files.

(** [stream_fs(root)], [tree] being what the file system holds at [root]. *)
Definition stream_fs (root : string) (tree : node) : list (string * string) :=
  List.flat_map listing (walk root tree).

(** [walked tree chain entries]: going down from [tree] by the names
    [chain], through directories that can be listed and, below [tree]
    itself, are no symbolic links, leads to a directory with these
    [entries]. *)
Inductive walked : node -> list string -> list (string * node) -> Prop :=
| walked_here entries :
    walked (Dir entries) [] entries
| walked_link target chain entries :
    walked target chain entries ->
    walked (Link target) chain entries
| walked_below entries name child chain entries' :
    In (name, child) entries ->
    is_dir child = true -> islink child = false ->
    walked child chain entries' ->
    walked (Dir entries) (name :: chain) entries'.

(** A tree to try things on. *)
Definition project : node :=
  Dir [("notes.txt"%string, File);
       ("shots"%string,
        Dir [("a.mov"%string, File); ("old"%string, Dir [("b.mov"%string, File)])]);
       ("latest"%string, Link (Dir [("c.mov"%string, File)]));
       ("private"%string, Locked)].

End StreamFs.

(** * Properties *)

(** ** merge_streams *)

Section MergeFacts.
Import Merge.
Context {T E : Type}.
Variable truthy : T -> bool.

Section AnyComparison.
Variable comparison : T -> T -> E + bool.

Local Abbreviation merge_loop := (merge_loop truthy comparison).
Local Abbreviation merge_from := (merge_from truthy comparison).
Local Abbreviation merge_streams := (merge_streams truthy comparison).

Lemma merge_loop_unfold h1 s1 h2 s2 :
  merge_loop (Some h1) s1 (Some h2) s2 =
  if truthy h1 && truthy h2 then
    match comparison h1 h2 with
    | inr true =>
        yield_first h1 (merge_loop (fst (fetch s1)) (snd (fetch s1)) (Some h2) s2)
    | inr false =>
        yield_first h2 (merge_loop (Some h1) s1 (fst (fetch s2)) (snd (fetch s2)))
    | inl e => ([], LoopRaised e)
    end
  else ([], LoopExit (Some h1) s1 (Some h2) s2).
Proof.
  simp merge_loop.
  destruct (truthy h1 && truthy h2); simpl; [|reflexivity].
  destruct (comparison h1 h2) as [e|[|]]; reflexivity.
Qed.

Lemma merge_loop_exit h1 s1 h2 s2 :
  is_true truthy h1 && is_true truthy h2 = false ->
  merge_loop h1 s1 h2 s2 = ([], LoopExit h1 s1 h2 s2).
Proof.
  destruct h1 as [x|], h2 as [y|]; simpl; intros Hf.
  - rewrite merge_loop_unfold, Hf. reflexivity.
  - now simp merge_loop.
  - now simp merge_loop.
  - now simp merge_loop.
Qed.

Lemma merge_from_yield x r h1 s1 h2 s2 :
  merge_loop h1 s1 h2 s2 = yield_first x r ->
  Merge.merge_from truthy comparison h1 s1 h2 s2 =
  yield_first x
    (match r with
     | (out, LoopRaised e) => (out, Raised e)
     | (out, LoopExit h1 s1 h2 s2) =>
         let (out1, rest1) := flush truthy h1 s1 in
         let (out2, rest2) := flush truthy h2 s2 in
         (out ++ out1 ++ out2, Finished rest1 rest2)
     end).
Proof.
  intros Hl. unfold Merge.merge_from. rewrite Hl.
  destruct r as [out [a b c d|e]]; simpl; [|reflexivity].
  destruct (flush truthy a b), (flush truthy c d). reflexivity.
Qed.

(** The generator after a step of the loop that takes the left head. *)
Lemma merge_from_left h1 s1 h2 s2 :
  truthy h1 = true -> truthy h2 = true -> comparison h1 h2 = inr true ->
  merge_from (Some h1) s1 (Some h2) s2 =
  yield_first h1 (merge_from (fst (fetch s1)) (snd (fetch s1)) (Some h2) s2).
Proof.
  intros H1 H2 Hc.
  erewrite merge_from_yield
    by (rewrite merge_loop_unfold, H1, H2, Hc; reflexivity).
  reflexivity.
Qed.

(** The generator after a step of the loop that takes the right head. *)
Lemma merge_from_right h1 s1 h2 s2 :
  truthy h1 = true -> truthy h2 = true -> comparison h1 h2 = inr false ->
  merge_from (Some h1) s1 (Some h2) s2 =
  yield_first h2 (merge_from (Some h1) s1 (fst (fetch s2)) (snd (fetch s2))).
Proof.
  intros H1 H2 Hc.
  erewrite merge_from_yield
    by (rewrite merge_loop_unfold, H1, H2, Hc; reflexivity).
  reflexivity.
Qed.

(** The generator once the loop condition fails. *)
Lemma merge_from_exit h1 s1 h2 s2 :
  is_true truthy h1 && is_true truthy h2 = false ->
  merge_from h1 s1 h2 s2 =
  (fst (flush truthy h1 s1) ++ fst (flush truthy h2 s2),
   Finished (snd (flush truthy h1 s1)) (snd (flush truthy h2 s2))).
Proof.
  intros Hf. unfold Merge.merge_from. rewrite merge_loop_exit by exact Hf.
  destruct (flush truthy h1 s1), (flush truthy h2 s2). reflexivity.
Qed.

(** What the loop has yielded on the way to a point is a prefix of what the
    generator yields, and the generator goes on from the point. *)
Lemma reaches_merge_from c out c' :
  reaches truthy comparison c out c' ->
  merge_from (head1 c) (stream1 c) (head2 c) (stream2 c) =
  (out ++ fst (merge_from (head1 c') (stream1 c') (head2 c') (stream2 c')),
   snd (merge_from (head1 c') (stream1 c') (head2 c') (stream2 c'))).
Proof.
  induction 1 as [c|h1 s1 h2 s2 out c H1 H2 Hc _ IH|h1 s1 h2 s2 out c H1 H2 Hc _ IH];
    simpl in *.
  - now destruct (merge_from _ _ _ _).
  - rewrite merge_from_left, IH by assumption. reflexivity.
  - rewrite merge_from_right, IH by assumption. reflexivity.
Qed.

(** The loop gets from its start to the state in which it is left by the
    steps of [reaches], and it is left because a head is falsy or because
    the comparison raised on the two heads. *)
Lemma merge_loop_reaches h1 s1 h2 s2 :
  match merge_loop h1 s1 h2 s2 with
  | (out, LoopExit h1' s1' h2' s2') =>
      reaches truthy comparison (Cursor h1 s1 h2 s2) out (Cursor h1' s1' h2' s2') /\
      is_true truthy h1' && is_true truthy h2' = false
  | (out, LoopRaised e) =>
      exists a s1' b s2',
        reaches truthy comparison (Cursor h1 s1 h2 s2) out
                (Cursor (Some a) s1' (Some b) s2') /\
        truthy a = true /\ truthy b = true /\ comparison a b = inl e
  end.
Proof.
  funelim (Merge.merge_loop truthy comparison h1 s1 h2 s2).
  all: try (simp merge_loop; split; [constructor|reflexivity]).
  all: try (simp merge_loop; split; [constructor|]; simpl; now rewrite ?andb_false_r).
  all: apply andb_true_iff in Heq0 as [Ht1 Ht2].
  - exists h1, s1, h2, s2. repeat split; try assumption. constructor.
  - destruct (merge_loop (fst (fetch s1)) (snd (fetch s1)) (Some h2) s2)
      as [out [a b c d|e]]; simpl.
    + destruct H as [Hr Hf]. split; [|exact Hf]. now apply reaches_left.
    + destruct H as (a & s1' & b & s2' & Hr & Hrest).
      exists a, s1', b, s2'. split; [|exact Hrest]. now apply reaches_left.
  - destruct (merge_loop (Some h1) s1 (fst (fetch s2)) (snd (fetch s2)))
      as [out [a b c d|e]]; simpl.
    + destruct H as [Hr Hf]. split; [|exact Hf]. now apply reaches_right.
    + destruct H as (a & s1' & b & s2' & Hr & Hrest).
      exists a, s1', b, s2'. split; [|exact Hrest]. now apply reaches_right.
Qed.

Lemma merge_streams_enter (A B : list T) :
  merge_streams A B =
  merge_from (head1 (enter A B)) (stream1 (enter A B))
             (head2 (enter A B)) (stream2 (enter A B)).
Proof. unfold Merge.merge_streams, enter. now destruct (fetch A), (fetch B). Qed.


(** When both current heads are falsy the generator ends at once and
    neither input is read further. *)
Lemma merge_streams_both_falsy (A B : list T) out x s1 y s2 :
  reaches truthy comparison (enter A B) out (Cursor (Some x) s1 (Some y) s2) ->
  truthy x = false -> truthy y = false ->
  merge_streams A B = (out, Finished s1 s2).
Proof.
  intros Hr Hx Hy. rewrite merge_streams_enter.
  rewrite (reaches_merge_from _ _ _ Hr). simpl.
  rewrite merge_from_exit by (simpl; rewrite Hx, Hy; reflexivity).
  simpl. rewrite Hx, Hy. simpl. rewrite app_nil_r. reflexivity.
Qed.

End AnyComparison.

Section TotalOrder.
Variable cmp : T -> T -> bool.

Local Abbreviation precedes := (fun a b => cmp a b = true).
Local Abbreviation comparison := (fun a b => @inr E bool (cmp a b)).
Local Abbreviation all_truthy := (Forall (fun x => truthy x = true)).

Lemma merge_from_one_side_left h1 s1 :
  truthy h1 = true ->
  merge_from truthy comparison (Some h1) s1 None [] = (h1 :: s1, Finished [] []).
Proof.
  intros H1. rewrite merge_from_exit by (simpl; apply andb_false_r).
  simpl. rewrite H1. simpl. now rewrite app_nil_r.
Qed.

Lemma merge_from_one_side_right h2 s2 :
  truthy h2 = true ->
  merge_from truthy comparison None [] (Some h2) s2 = (h2 :: s2, Finished [] []).
Proof.
  intros H2. rewrite merge_from_exit by reflexivity.
  simpl. now rewrite H2.
Qed.

Lemma merged_left h1 s1 p2 r :
  HdRel precedes h1 p2 ->
  merged (E:=E) precedes s1 p2 r ->
  merged precedes (h1 :: s1) p2 (yield_first h1 r).
Proof.
  intros Hh (out & -> & Hp & Hs). exists (h1 :: out). split; [reflexivity|].
  split; [simpl; now constructor|].
  intros S1 S2. apply Sorted_inv in S1 as [S1 H1].
  destruct (Hs S1 S2) as [So Hhd]. split.
  - constructor; [assumption|]. now apply Hhd.
  - intros x Hx _. constructor. now apply HdRel_inv in Hx.
Qed.

Lemma merged_right h2 p1 s2 r :
  HdRel precedes h2 p1 ->
  merged (E:=E) precedes p1 s2 r ->
  merged precedes p1 (h2 :: s2) (yield_first h2 r).
Proof.
  intros Hh (out & -> & Hp & Hs). exists (h2 :: out). split; [reflexivity|].
  split.
  - simpl. rewrite Hp. apply Permutation_middle.
  - intros S1 S2. apply Sorted_inv in S2 as [S2 H2].
    destruct (Hs S1 S2) as [So Hhd]. split.
    + constructor; [assumption|]. now apply Hhd.
    + intros x _ Hx. constructor. now apply HdRel_inv in Hx.
Qed.

Lemma merged_only_left p1 :
  merged (E:=E) precedes p1 [] (p1, Finished [] []).
Proof.
  exists p1. split; [reflexivity|]. split; [now rewrite app_nil_r|].
  intros S1 _. split; [assumption|]. now intros x Hx _.
Qed.

Lemma merged_only_right p2 :
  merged (E:=E) precedes [] p2 (p2, Finished [] []).
Proof.
  exists p2. split; [reflexivity|]. split; [reflexivity|].
  intros _ S2. split; [assumption|]. now intros x _ Hx.
Qed.

(** The heart of the merge: from a point where both heads are present and
    everything still to come is truthy. *)
Lemma merge_from_merged h1 s1 h2 s2 :
  (forall a b, cmp a b = true \/ cmp b a = true) ->
  all_truthy (h1 :: s1) -> all_truthy (h2 :: s2) ->
  merged precedes (h1 :: s1) (h2 :: s2)
         (merge_from truthy comparison (Some h1) s1 (Some h2) s2).
Proof.
  intros total. revert h1 h2 s2.
  induction s1 as [|a s1 IH1]; intros h1 h2 s2; revert h2;
    induction s2 as [|b s2 IH2]; intros h2 T1 T2;
    pose proof (Forall_inv T1) as Hh1; pose proof (Forall_inv T2) as Hh2;
    pose proof (Forall_inv_tail T1) as Ht1; pose proof (Forall_inv_tail T2) as Ht2;
    simpl in Hh1, Hh2;
    destruct (cmp h1 h2) eqn:Hc.
  all: match goal with
       | Hc : cmp _ _ = true |- _ =>
           rewrite merge_from_left by (try assumption; now rewrite Hc);
           apply merged_left; [now constructor|]
       | Hc : cmp _ _ = false |- _ =>
           rewrite merge_from_right by (try assumption; now rewrite Hc);
           apply merged_right;
           [constructor; destruct (total h1 h2); [congruence|assumption]|]
       end.
  all: simpl fetch; simpl fst; simpl snd.
  - rewrite merge_from_one_side_right by assumption. apply merged_only_right.
  - rewrite merge_from_one_side_left by assumption. apply merged_only_left.
  - rewrite merge_from_one_side_right by assumption. apply merged_only_right.
  - apply IH2; assumption.
  - apply IH1; assumption.
  - rewrite merge_from_one_side_left by assumption. apply merged_only_left.
  - apply IH1; assumption.
  - apply IH2; assumption.
Qed.

(** The merge of the inputs as a whole. *)
Lemma merge_streams_merged (A B : list T) :
  (forall a b, cmp a b = true \/ cmp b a = true) ->
  all_truthy A -> all_truthy B ->
  merged (E:=E) precedes A B (merge_streams truthy comparison A B).
Proof.
  intros total TA TB. unfold merge_streams.
  destruct A as [|h1 s1], B as [|h2 s2]; simpl fetch; cbv iota beta.
  - rewrite merge_from_exit by reflexivity. simpl. apply merged_only_left.
  - rewrite merge_from_one_side_right by (now apply Forall_inv in TB).
    apply merged_only_right.
  - rewrite merge_from_one_side_left by (now apply Forall_inv in TA).
    apply merged_only_left.
  - now apply merge_from_merged.
Qed.

(** C1, as the code has it. For inputs whose items are all truthy and a
    comparison that does not raise and is total (of any two items one may go
    before the other), when both inputs are sorted under the comparison the
    generator reads both inputs to the end and what it yields is sorted
    under the comparison and is a rearrangement of the items of both inputs,
    each item yielded once. *)
Theorem merge_streams_sorted_perm (A B : list T) :
  (forall a b, cmp a b = true \/ cmp b a = true) ->
  all_truthy A -> all_truthy B ->
  Sorted precedes A -> Sorted precedes B ->
  exists out,
    merge_streams truthy comparison A B = (out, Finished [] []) /\
    Sorted precedes out /\
    Permutation out (A ++ B).
Proof.
  intros total TA TB SA SB.
  destruct (merge_streams_merged A B total TA TB) as (out & Ho & Hp & Hs).
  exists out. destruct (Hs SA SB) as [So _]. auto.
Qed.

(** With a comparison that is transitive as well, every item of the result
    precedes all items after it, not only the next. *)
Lemma merge_streams_strongly_sorted (A B : list T) :
  (forall a b, cmp a b = true \/ cmp b a = true) ->
  (forall a b c, cmp a b = true -> cmp b c = true -> cmp a c = true) ->
  all_truthy A -> all_truthy B ->
  Sorted precedes A -> Sorted precedes B ->
  StronglySorted precedes (fst (merge_streams truthy comparison A B)).
Proof.
  intros total trans TA TB SA SB.
  destruct (merge_streams_merged A B total TA TB) as (out & -> & _ & Hs).
  destruct (Hs SA SB) as [So _]. simpl.
  apply Sorted_StronglySorted; [|exact So].
  intros a b c. apply trans.
Qed.

End TotalOrder.
End MergeFacts.

Section MergeSamples.
Import Merge.

Local Abbreviation leq := (fun a b : Z => (a <=? b)%Z = true).
Local Abbreviation lt := (fun a b : Z => (a <? b)%Z = true).

(** The sample of the specification: ids 1, 3, 5 merged with ids 2, 4 under
    the default comparison. *)
Example merge_streams_by_id :
  merge_streams record_truthy by_id
    [with_id 1; with_id 3; with_id 5] [with_id 2; with_id 4]
  = ([with_id 1; with_id 2; with_id 3; with_id 4; with_id 5], Finished [] []).
Proof. vm_compute. reflexivity. Qed.

(** The default comparison raises on a record without an id, and the
    generator ends with that exception. *)
Example merge_streams_key_error :
  merge_streams record_truthy by_id
    [with_id 1; {[ "name"%string := 7%Z ]}] [with_id 2]
  = ([with_id 1], Raised "KeyError"%string).
Proof. vm_compute. reflexivity. Qed.

Lemma merge_streams_sorted_perm_witness :
  exists out,
    merge_streams nonzero at_most [1; 3; 5]%Z [2; 4]%Z = (out, Finished [] []) /\
    Sorted leq out /\
    Permutation out ([1; 3; 5] ++ [2; 4])%Z.
Proof.
  apply (merge_streams_sorted_perm (E:=unit) nonzero Z.leb [1; 3; 5]%Z [2; 4]%Z).
  - intros a b. destruct (Z.leb_spec a b) as [Hab|Hab]; [now left|right].
    apply Z.leb_le. lia.
  - repeat constructor.
  - repeat constructor.
  - repeat constructor.
  - repeat constructor.
Defined.

(** C1 as stated fails on the code, in two ways. A falsy item ends the
    reading of its input: with the comparison [<=], the sorted inputs
    [0; 1] and [2] give just [2], and 1 is never read. And with a
    comparison that is not total the result need not be sorted: with [<],
    the sorted inputs [1] and [1] give [1; 1]. *)
Lemma merge_streams_sorted_perm_fails :
  (Sorted leq [0; 1]%Z /\ Sorted leq [2]%Z /\
   merge_streams nonzero at_most [0; 1]%Z [2]%Z = ([2]%Z, Finished [1]%Z []) /\
   ~ Permutation [2]%Z ([0; 1] ++ [2])%Z) /\
  (Sorted lt [1]%Z /\ Sorted lt [1]%Z /\
   merge_streams nonzero below [1]%Z [1]%Z = ([1; 1]%Z, Finished [] []) /\
   ~ Sorted lt [1; 1]%Z).
Proof.
  split; (split; [repeat constructor|]); (split; [repeat constructor|]);
    (split; [reflexivity|]).
  - intros Hp. apply Permutation_length in Hp. discriminate Hp.
  - intros Hs. apply Sorted_inv in Hs as [_ Hh]. apply HdRel_inv in Hh.
    discriminate Hh.
Qed.


End MergeSamples.

(** ** retry *)

Section RetryFacts.
Import Retry.
Context {A K St V X : Type}.
Variable callable : A -> K -> St -> outcome V X * St.

Local Abbreviation retry := (retry callable).

Lemma invocations_record_invoked (w : world St X) :
  invocations (record Invoked w) = S (invocations w).
Proof.
  unfold invocations, record. simpl.
  rewrite List.filter_app, List.length_app. simpl. lia.
Qed.

Lemma invocations_record_other (e : effect X) (w : world St X) :
  e <> Invoked -> invocations (record e w) = invocations w.
Proof.
  intros He. unfold invocations, record. simpl.
  rewrite List.filter_app, List.length_app.
  destruct e; simpl; try lia. congruence.
Qed.

(** One invocation that raises, and what [retry] goes on with. *)
Lemma retry_raise fuel args kw w x s' :
  callable args (kw_rest kw) (cstate w) = (Raises x, s') ->
  exists kw' w',
    kw_rest kw' = kw_rest kw /\
    kw_attempt kw' = Some (default 0%Z (kw_attempt kw) + 1)%Z /\
    cstate w' = s' /\
    effects w' = effects w ++
      [Invoked; Echoed x; Slept (backoff (default 0%Z (kw_attempt kw)))] /\
    invocations w' = S (invocations w) /\
    Retry.retry callable (S fuel) args kw w =
      match retry fuel args kw' w' with
      | (Some (Returns _), w'') => (Some (Returns PyNone), w'')
      | other => other
      end.
Proof.
  intros Hc. simpl. rewrite Hc.
  exists {| kw_attempt := Some (default 0%Z (kw_attempt kw) + 1)%Z;
            kw_rest := kw_rest kw |},
         (record (Slept (backoff (default 0%Z (kw_attempt kw))))
            (record (Echoed x)
               {| cstate := s'; effects := effects w ++ [Invoked] |})).
  repeat split; simpl; try reflexivity.
  - now rewrite <- !app_assoc.
  - rewrite !invocations_record_other by discriminate.
    unfold invocations. simpl.
    rewrite List.filter_app, List.length_app. simpl. lia.
Qed.

(** A callable that returns after [n] failures makes [retry] return, with
    [n + 1] invocations, as soon as the bound allows that many. *)
Lemma retry_succeeds args kw w n v :
  succeeds_after callable args (kw_rest kw) n (cstate w) v ->
  forall fuel, n < fuel ->
  exists w', retry fuel args kw w = (Some (Returns PyNone), w') /\
             invocations w' = invocations w + S n.
Proof.
  remember (kw_rest kw) as rest eqn:Hrest. remember (cstate w) as s eqn:Hs.
  intros Hsa. revert kw w Hrest Hs.
  induction Hsa as [s v s' Hc|n s x s' v Hc _ IH]; intros kw w -> -> fuel Hf;
    destruct fuel as [|fuel]; try lia.
  - simpl. rewrite Hc. eexists; split; [reflexivity|].
    unfold invocations. simpl.
    rewrite List.filter_app, List.length_app. simpl. lia.
  - destruct (retry_raise fuel args kw w x s' Hc)
      as (kw' & w' & Hk & _ & Hw & _ & Hi & ->).
    destruct (IH kw' w' (eq_sym Hk) (eq_sym Hw) fuel ltac:(lia)) as (w'' & -> & Hi').
    exists w''. split; [reflexivity|]. lia.
Qed.

(** C7. A callable that raises on its first two invocations and returns on
    the third: [retry], called without an [attempt] argument, invokes it
    three times and returns without an exception; after the first failure it
    sleeps [backoff 0], which is half a second, and after the second
    [backoff 1], which is one second, where [backoff attempt] is
    [min(.5 * 2 ** attempt, 4)] and [attempt] starts at 0 and goes up by
    one with every failure. *)
Theorem retry_fails_twice args rest s0 x1 s1 x2 s2 v s3 fuel :
  callable args rest s0 = (Raises x1, s1) ->
  callable args rest s1 = (Raises x2, s2) ->
  callable args rest s2 = (Returns v, s3) ->
  let w := retry (3 + fuel) args {| kw_attempt := None; kw_rest := rest |}
                 {| cstate := s0; effects := [] |} in
  fst w = Some (Returns PyNone) /\
  cstate (snd w) = s3 /\
  effects (snd w) =
    [Invoked; Echoed x1; Slept (backoff 0);
     Invoked; Echoed x2; Slept (backoff (0 + 1));
     Invoked] /\
  invocations (snd w) = 3 /\
  sleeps (snd w) = [backoff 0; backoff (0 + 1)] /\
  (backoff 0 == 1 # 2)%Q /\ (backoff (0 + 1) == 1)%Q /\
  (forall attempt, backoff attempt = Qmin ((1 # 2) * 2 ^ attempt) 4)%Q.
Proof.
  intros H1 H2 H3. simpl. rewrite H1. simpl. rewrite H2. simpl. rewrite H3.
  simpl. repeat split; reflexivity.
Qed.



End RetryFacts.

Section RetrySamples.
Import Retry.

Lemma flaky_twice : succeeds_after (flaky 2) tt tt 2 0 3.
Proof.
  apply succeeds_later with (x := "ConnectionError"%string) (s' := 1);
    [reflexivity|].
  apply succeeds_later with (x := "ConnectionError"%string) (s' := 2);
    [reflexivity|].
  apply succeeds_now with (s' := 3). reflexivity.
Defined.

Lemma broken_always : always_raises broken tt tt.
Proof. intros s. exists "ConnectionError"%string, (S s). reflexivity. Defined.

Lemma retry_fails_twice_witness :
  let w := retry (flaky 2) (3 + 0) tt no_kwargs fresh in
  fst w = Some (Returns PyNone) /\
  cstate (snd w) = 3 /\
  effects (snd w) =
    [Invoked; Echoed "ConnectionError"%string; Slept (backoff 0);
     Invoked; Echoed "ConnectionError"%string; Slept (backoff (0 + 1));
     Invoked] /\
  invocations (snd w) = 3 /\
  sleeps (snd w) = [backoff 0; backoff (0 + 1)] /\
  (backoff 0 == 1 # 2)%Q /\ (backoff (0 + 1) == 1)%Q /\
  (forall attempt, backoff attempt = Qmin ((1 # 2) * 2 ^ attempt) 4)%Q.
Proof.
  apply (retry_fails_twice (flaky 2) tt tt 0
           "ConnectionError"%string 1 "ConnectionError"%string 2 3 3 0);
    reflexivity.
Defined.



End RetrySamples.

(** ** exec_stream *)

Section ExecFacts.
Import ExecStream.
Context {Op R X L : Type} `{RateLimiter L}.
Variable truthy : Op -> bool.
Variable callable : Op -> outcome R X.
Variable sync : Op -> bool.
Variable rate : Q.

Local Abbreviation state := (@state Op L).
Local Abbreviation collect := (collect callable).
Local Abbreviation execute := (execute callable).
Local Abbreviation throttle := (throttle callable rate).
Local Abbreviation drain := (drain callable).
Local Abbreviation dispatch := (dispatch callable sync).
Local Abbreviation exec_loop := (exec_loop truthy callable sync rate).
Local Abbreviation succeeds := (succeeds callable).

(** *** The futures that a wait reports *)

Lemma drawn_from_split done (fs : gmap nat Op) :
  drawn_from done fs ->
  map_to_list fs ≡ₚ done ++ map_to_list (fs ∖ list_to_map done).
Proof.
  intros [Hnd Hin].
  apply NoDup_Permutation.
  - apply NoDup_map_to_list.
  - apply NoDup_app. split; [|split].
    + eapply NoDup_fmap_1. exact Hnd.
    + intros [k v] Hd Hm. apply elem_of_map_to_list in Hm.
      apply lookup_difference_Some in Hm as [_ Hm].
      apply not_elem_of_list_to_map in Hm. apply Hm.
      apply list_elem_of_fmap. exists (k, v). auto.
    + apply NoDup_map_to_list.
  - intros [k v]. rewrite elem_of_app, !elem_of_map_to_list, lookup_difference_Some.
    split.
    + intros Hk. destruct (decide (k ∈ done.*1)) as [Hd|Hd].
      * left. apply list_elem_of_fmap in Hd as ([k' v'] & -> & Hd). simpl in *.
        rewrite (Hin _ _ Hd) in Hk. congruence.
      * right. split; [assumption|]. now apply not_elem_of_list_to_map.
    + intros [Hd|[Hk _]]; auto.
Qed.

Lemma drawn_from_size done (fs : gmap nat Op) :
  drawn_from done fs ->
  size fs = List.length done + size (fs ∖ list_to_map done).
Proof.
  intros Hd. apply drawn_from_split, Permutation_length in Hd.
  rewrite List.length_app, !length_map_to_list in Hd. exact Hd.
Qed.

Lemma named_drawn choice (fs : gmap nat Op) :
  drawn_from (named choice fs) fs.
Proof.
  unfold named.
  assert (Hnd : NoDup (remove_dups choice)) by apply NoDup_remove_dups.
  induction Hnd as [|id ids Hid Hnd [IH1 IH2]]; simpl.
  - split; [constructor|]. intros id operation Hin. inversion Hin.
  - destruct (fs !! id) as [operation|] eqn:Hl; simpl; [|now split].
    split.
    + constructor; [|assumption].
      intros Hin. apply list_elem_of_fmap in Hin as ([id' operation'] & Heq & Hin).
      simpl in Heq. subst id'.
      apply list_elem_of_omap in Hin as (id'' & Hin & Hf).
      destruct (fs !! id''); simpl in Hf; [|discriminate].
      injection Hf as -> _. contradiction.
    + intros id' operation' Hin. apply elem_of_cons in Hin as [Heq|Hin].
      * now injection Heq as -> ->.
      * now apply IH2.
Qed.

Lemma first_listed_drawn (fs : gmap nat Op) :
  drawn_from (take 1 (map_to_list fs)) fs.
Proof.
  split.
  - eapply sublist_NoDup; [apply (NoDup_fst_map_to_list fs)|].
    apply fmap_sublist, sublist_take.
  - intros id operation Hin. apply elem_of_map_to_list.
    revert Hin. apply subseteq_take.
Qed.

Lemma first_completed_drawn choice (fs : gmap nat Op) :
  drawn_from (first_completed choice fs) fs.
Proof.
  unfold first_completed. pose proof (named_drawn choice fs) as Hn.
  destruct (named choice fs); [apply first_listed_drawn|exact Hn].
Qed.

(** A wait for the first completed future of a set that is not empty
    reports at least one. *)
Lemma first_completed_nonempty choice (fs : gmap nat Op) :
  fs <> ∅ -> first_completed choice fs <> [].
Proof.
  unfold first_completed. intros Hne.
  destruct (named choice fs); [|discriminate].
  destruct (map_to_list fs) eqn:Hl; [|discriminate].
  now apply map_to_list_empty_iff in Hl.
Qed.

(** A wait for all futures reports every future of the set, once. *)
Lemma all_completed_perm choice (fs : gmap nat Op) :
  all_completed choice fs ≡ₚ map_to_list fs.
Proof.
  unfold all_completed. symmetry. apply drawn_from_split, named_drawn.
Qed.

(** *** Collecting results *)

Lemma collect_succeed (ops : list Op) :
  Forall succeeds ops ->
  snd (collect ops) = None /\
  Returns <$> fst (collect ops) = execute <$> ops.
Proof.
  induction 1 as [|operation ops [r Hr] _ [IH1 IH2]]; simpl; [now split|].
  destruct (collect ops) as [ys e]. simpl in *. subst e.
  unfold ExecStream.execute. rewrite Hr. simpl.
  split; [reflexivity|]. f_equal. exact IH2.
Qed.

Lemma collect_succeed_ops (ops : list Op) :
  Forall succeeds ops ->
  snd (collect ops) = None /\ (fst (collect ops)).*1 = ops.
Proof.
  induction 1 as [|operation ops [r Hr] _ [IH1 IH2]]; simpl; [now split|].
  destruct (collect ops) as [ys e]. simpl in *. subst e.
  unfold ExecStream.execute. rewrite Hr. simpl.
  split; [reflexivity|]. f_equal. exact IH2.
Qed.

(** The first task that raised ends the collection: the results before it
    are yielded, its exception leaves the loop, nothing after it is
    yielded. *)
Lemma collect_raise (pre post : list Op) operation x :
  snd (collect pre) = None ->
  callable operation = Raises x ->
  collect (pre ++ operation :: post) = (fst (collect pre), Some x).
Proof.
  intros Hpre Hx. induction pre as [|o pre IH]; simpl in *.
  - unfold ExecStream.execute. now rewrite Hx.
  - destruct (execute o) as [result|x']; [|discriminate].
    destruct (collect pre) as [ys e]. simpl in *. now rewrite IH.
Qed.

(** *** The limiter block *)

Lemma granted_app (evs evs' : list (@event Op)) :
  granted (evs ++ evs') = granted evs + granted evs'.
Proof. unfold granted. now rewrite List.filter_app, List.length_app. Qed.

Lemma granted_cons (e : @event Op) evs :
  granted (e :: evs) =
  match e with Consumed true => 1 | _ => 0 end + granted evs.
Proof. unfold granted. simpl. now destruct e as [[|]| | | |]. Qed.

Lemma granted_nil : granted ([] : list (@event Op)) = 0.
Proof. reflexivity. Qed.

Ltac count_granted :=
  rewrite ?granted_app, ?granted_cons, ?granted_nil in *.

(** What the limiter block has done when the loop goes on after it. *)
Lemma throttle_continue env (st : state) ys st1 :
  throttle env st = (ys, Continue st1) ->
  let g := fst (consume (limiter st) (now st)) in
  limiter st1 = snd (consume (limiter st) (now st)) /\
  issued st1 = issued st /\
  (exists done,
     drawn_from done (futures st) /\
     futures st1 = futures st ∖ list_to_map done /\
     collect (done.*2) = (ys, None) /\
     (g = true -> done = []) /\
     (g = false -> futures st <> ∅ -> done <> [])) /\
  (exists evs,
     trace st1 = trace st ++ Consumed g :: evs /\
     (evs = [] \/ exists q, evs = [Slept q])).
Proof.
  unfold ExecStream.throttle.
  destruct (consume (limiter st) (now st)) as [[|] l] eqn:Hc; cbv zeta; simpl fst; simpl snd.
  - intros Heq. inversion Heq; subst; clear Heq. simpl. repeat split.
    + exists []. split; [|split; [|split; [reflexivity|split; [reflexivity|congruence]]]].
      * split; [constructor|]. intros id operation Hin. inversion Hin.
      * simpl. now rewrite map_difference_empty.
    + exists []. auto.
  - simpl. set (done := first_completed (completed env) (futures st)).
    destruct (collect (done.*2)) as [zs [x|]] eqn:Hcol; [intros Heq; discriminate Heq|].
    intros Heq. inversion Heq; subst; clear Heq.
    assert (Hd : drawn_from done (futures st)) by apply first_completed_drawn.
    assert (Hn : futures st <> ∅ -> done <> []) by apply first_completed_nonempty.
    match goal with
    | |- context [if ?b then _ else _] => destruct b
    end; simpl; repeat split.
    + exists done. split; [exact Hd|]. repeat split; try easy.
    + exists [Slept (1 / rate)]. split; [|right; eauto]. now rewrite <- app_assoc.
    + exists done. split; [exact Hd|]. repeat split; try easy.
    + exists []. auto.
Qed.

(** What the limiter block has done when an exception leaves it. *)
Lemma throttle_stop env (st : state) ys st1 e :
  throttle env st = (ys, Stop st1 e) ->
  futures st1 = futures st /\
  issued st1 = issued st /\
  trace st1 = trace st ++ [Consumed false] /\
  exists done x,
    e = Failed x /\ drawn_from done (futures st) /\
    collect (done.*2) = (ys, Some x).
Proof.
  unfold ExecStream.throttle.
  destruct (consume (limiter st) (now st)) as [[|] l] eqn:Hc; cbv zeta;
    [intros Heq; discriminate Heq|].
  simpl. set (done := first_completed (completed env) (futures st)).
  destruct (collect (done.*2)) as [zs [x|]] eqn:Hcol;
    [|intros Heq; discriminate Heq].
  intros Heq. inversion Heq; subst; clear Heq. simpl.
  repeat split. exists done, x. repeat split; try apply first_completed_drawn.
  exact Hcol.
Qed.

(** After the limiter block the futures in the set are no more than the
    tokens handed out, if before it they were at most one more. *)
Lemma throttle_in_flight env (st : state) ys st1 :
  throttle env st = (ys, Continue st1) ->
  size (futures st) <= granted (trace st) + 1 ->
  size (futures st1) <= granted (trace st1).
Proof.
  intros Ht Hi.
  destruct (throttle_continue _ _ _ _ Ht)
    as (_ & _ & (done & Hd & Hf & _ & Hg & Hr) & (evs & Htr & Hevs)).
  rewrite Htr, Hf, granted_app.
  pose proof (drawn_from_size done (futures st) Hd) as Hsz.
  assert (Hq : granted (Consumed (fst (consume (limiter st) (now st))) :: evs)
               = if fst (consume (limiter st) (now st)) then 1 else 0).
  { destruct Hevs as [->|[q ->]]; now destruct (fst _). }
  rewrite Hq.
  destruct (fst (consume (limiter st) (now st))).
  - specialize (Hg eq_refl). subst done. simpl in Hsz |- *. lia.
  - destruct (decide (futures st = ∅)) as [He|Hne].
    + rewrite He in Hsz |- *. rewrite map_size_empty in Hsz. lia.
    + specialize (Hr eq_refl Hne).
      assert (0 < List.length done) by (destruct done; [congruence|simpl; lia]).
      lia.
Qed.

Lemma submit_size operation (st : state) :
  size (futures (submit operation st)) <= S (size (futures st)).
Proof.
  simpl. destruct (futures st !! issued st) eqn:Hl.
  - rewrite map_size_insert_Some by eauto. lia.
  - rewrite map_size_insert_None by assumption. lia.
Qed.

(** *** One iteration of the loop *)

Lemma exec_loop_stop iterable envs (st : state) ys st1 e :
  throttle (hd idle envs) st = (ys, Stop st1 e) ->
  exec_loop iterable envs st = finish ys st1 e iterable.
Proof. intros Ht. destruct iterable; simpl; now rewrite Ht. Qed.

Lemma exec_loop_end iterable envs (st : state) ys st1 :
  throttle (hd idle envs) st = (ys, Continue st1) ->
  iterable = [] \/ (exists operation rest,
                      iterable = operation :: rest /\ truthy operation = false) ->
  let st2 := pull (head iterable) (hd idle envs) st1 in
  exec_loop iterable envs st =
  finish (ys ++ fst (drain (hd idle envs) st2)) st2
         (snd (drain (hd idle envs) st2)) (tail iterable).
Proof.
  intros Ht [->|(operation & rest & -> & Hf)]; simpl; rewrite Ht; [|rewrite Hf];
    now destruct (drain _ _).
Qed.

Lemma exec_loop_next operation rest envs (st : state) ys st1 zs st2 :
  throttle (hd idle envs) st = (ys, Continue st1) ->
  truthy operation = true ->
  dispatch operation (pull (Some operation) (hd idle envs) st1) = (zs, Continue st2) ->
  exec_loop (operation :: rest) envs st =
  after (ys ++ zs) st2 (exec_loop rest (tl envs) st2).
Proof. intros Ht Hop Hd. simpl. now rewrite Ht, Hop, Hd. Qed.

Lemma exec_loop_abort operation rest envs (st : state) ys st1 zs st2 e :
  throttle (hd idle envs) st = (ys, Continue st1) ->
  truthy operation = true ->
  dispatch operation (pull (Some operation) (hd idle envs) st1) = (zs, Stop st2 e) ->
  exec_loop (operation :: rest) envs st = finish (ys ++ zs) st2 e rest.
Proof. intros Ht Hop Hd. simpl. now rewrite Ht, Hop, Hd. Qed.

(** C2, as the code has it. A truthy operation for which [sync] is true and
    on which the callable returns [r]: in the iteration that reads it, the
    limiter is asked for a token before the operation is read, as in every
    iteration, and keeps the state that call left; then the callable is
    called on the control thread and the pair is yielded at that point,
    after what the limiter block yielded and before everything the later
    iterations yield; the operation is not submitted, so the set of futures
    and the number of futures created stay as they were. *)
Theorem exec_loop_sync operation rest envs (st : state) ys st1 r :
  truthy operation = true -> sync operation = true ->
  callable operation = Returns r ->
  throttle (hd idle envs) st = (ys, Continue st1) ->
  let st2 := log (Called operation) (pull (Some operation) (hd idle envs) st1) in
  exec_loop (operation :: rest) envs st =
    after (ys ++ [(operation, r)]) st2 (exec_loop rest (tl envs) st2) /\
  limiter st1 = snd (consume (limiter st) (now st)) /\
  limiter st2 = limiter st1 /\
  futures st2 = futures st1 /\
  issued st2 = issued st1 /\
  trace st2 = trace st1 ++ [Pulled (Some operation); Called operation].
Proof.
  intros Hop Hs Hr Ht st2.
  split; [|split; [apply (throttle_continue _ _ _ _ Ht)|]].
  - apply exec_loop_next with (st1 := st1); try assumption.
    unfold ExecStream.dispatch, ExecStream.execute. now rewrite Hs, Hr.
  - repeat split. subst st2. simpl. now rewrite <- app_assoc.
Qed.

(** C5. A truthy operation that is not [sync] and on which the callable
    raises [x]: the iteration that reads it submits it and the loop goes on
    to the next iteration; when the results of finished tasks are collected,
    the pairs of the tasks before it are yielded and then [x] leaves the
    generator, from the limiter block as from the final wait, and nothing
    is yielded or read after that. *)
Theorem exec_loop_pooled_raise operation x :
  truthy operation = true -> sync operation = false ->
  callable operation = Raises x ->
  (forall rest envs (st : state) ys st1,
     throttle (hd idle envs) st = (ys, Continue st1) ->
     let st2 := submit operation (pull (Some operation) (hd idle envs) st1) in
     exec_loop (operation :: rest) envs st =
       after ys st2 (exec_loop rest (tl envs) st2) /\
     futures st2 !! issued st1 = Some operation) /\
  (forall pre post,
     snd (collect pre) = None ->
     collect (pre ++ operation :: post) = (fst (collect pre), Some x)) /\
  (forall iterable envs (st : state) pre post,
     fst (consume (limiter st) (now st)) = false ->
     (first_completed (completed (hd idle envs)) (futures st)).*2
       = pre ++ operation :: post ->
     snd (collect pre) = None ->
     let r := exec_loop iterable envs st in
     yielded r = fst (collect pre) /\ how r = Failed x /\
     unread r = iterable /\ snapshots r = []) /\
  (forall iterable envs (st : state) ys st1 pre post,
     throttle (hd idle envs) st = (ys, Continue st1) ->
     iterable = [] \/ (exists o rest, iterable = o :: rest /\ truthy o = false) ->
     (all_completed (drained (hd idle envs)) (futures st1)).*2
       = pre ++ operation :: post ->
     snd (collect pre) = None ->
     let r := exec_loop iterable envs st in
     yielded r = ys ++ fst (collect pre) /\ how r = Failed x /\
     unread r = tail iterable /\ snapshots r = []).
Proof.
  intros Hop Hs Hx. split; [|split; [|split]].
  - intros rest envs st ys st1 Ht st2. split.
    + rewrite <- (app_nil_r ys) at 1.
      apply exec_loop_next with (st1 := st1); try assumption.
      unfold ExecStream.dispatch. now rewrite Hs.
    + subst st2. simpl. apply lookup_insert_eq.
  - intros pre post Hpre. now apply collect_raise.
  - intros iterable envs st pre post Hg Hdone Hpre r.
    assert (Ht : exists st1, throttle (hd idle envs) st
                             = (fst (collect pre), Stop st1 (Failed x))).
    { unfold ExecStream.throttle.
      destruct (consume (limiter st) (now st)) as [g l]. simpl in Hg. subst g.
      simpl. rewrite Hdone, (collect_raise pre post operation x Hpre Hx).
      eauto. }
    destruct Ht as [st1 Ht]. subst r.
    rewrite (exec_loop_stop _ _ _ _ _ _ Ht). now repeat split.
  - intros iterable envs st ys st1 pre post Ht Hend Hdone Hpre r. subst r.
    rewrite (exec_loop_end _ _ _ _ _ Ht Hend). cbv zeta.
    unfold ExecStream.drain. simpl futures.
    rewrite Hdone, (collect_raise pre post operation x Hpre Hx).
    now repeat split.
Qed.


(** *** The loop as a whole *)

Lemma dispatch_in_flight operation (st st2 : state) zs :
  dispatch operation st = (zs, Continue st2) ->
  size (futures st2) <= S (size (futures st)) /\
  granted (trace st2) = granted (trace st).
Proof.
  unfold ExecStream.dispatch. destruct (sync operation).
  - destruct (execute operation); intros Heq; inversion Heq; subst; clear Heq.
    simpl. count_granted. split; lia.
  - intros Heq; inversion Heq; subst; clear Heq. split.
    + apply submit_size.
    + simpl. count_granted. lia.
Qed.

Lemma exec_loop_in_flight iterable envs (st : state) :
  size (futures st) <= granted (trace st) + 1 ->
  Forall (fun st' : state => size (futures st') <= granted (trace st') + 1)
         (snapshots (exec_loop iterable envs st) ++ [final (exec_loop iterable envs st)]).
Proof.
  revert envs st. induction iterable as [|operation rest IH]; intros envs st Hi.
  all: destruct (throttle (hd idle envs) st) as [ys [st1|st1 e]] eqn:Ht.
  all: try (rewrite (exec_loop_stop _ _ _ _ _ _ Ht); simpl;
            destruct (throttle_stop _ _ _ _ _ Ht) as (Hf & _ & Htr & _);
            constructor; [|constructor];
            rewrite Hf, Htr; count_granted; lia).
  all: pose proof (throttle_in_flight _ _ _ _ Ht Hi) as Hj.
  - rewrite (exec_loop_end _ _ _ _ _ Ht) by now left. simpl.
    constructor; [|constructor]. unfold ExecStream.pull. simpl.
    count_granted. lia.
  - destruct (truthy operation) eqn:Hop.
    + destruct (dispatch operation (pull (Some operation) (hd idle envs) st1))
        as [zs [st2|st2 e]] eqn:Hd.
      * rewrite (exec_loop_next _ _ _ _ _ _ _ _ Ht Hop Hd). simpl.
        apply dispatch_in_flight in Hd as [Hs Hg].
        unfold ExecStream.pull in Hs, Hg. simpl in Hs, Hg.
        count_granted.
        assert (Hi2 : size (futures st2) <= granted (trace st2) + 1) by lia.
        constructor; [exact Hi2|]. now apply IH.
      * rewrite (exec_loop_abort _ _ _ _ _ _ _ _ _ Ht Hop Hd). simpl.
        constructor; [|constructor].
        revert Hd. unfold ExecStream.dispatch. destruct (sync operation).
        -- destruct (execute operation); intros Heq; inversion Heq; subst.
           unfold ExecStream.pull. simpl. count_granted. lia.
        -- intros Heq; inversion Heq.
    + rewrite (exec_loop_end _ _ _ _ _ Ht) by (right; eauto). simpl.
      constructor; [|constructor]. unfold ExecStream.pull. simpl.
      count_granted. lia.
Qed.

(** C4, as the code has it. At the end of every iteration of a run, and
    when the run ends, the futures in the set — the tasks submitted and not
    yet collected — are at most one more than the tokens the limiter has
    handed out so far. The pool size [capacity] does not bound them. *)
Theorem exec_stream_in_flight iterable capacity envs :
  let r := exec_stream truthy callable sync rate iterable capacity envs in
  Forall (fun st' : state => size (futures st') <= granted (trace st') + 1)
         (snapshots r ++ [final r]).
Proof.
  apply exec_loop_in_flight. simpl. rewrite map_size_empty. lia.
Qed.

(** *** Every operation read is applied once *)

Local Abbreviation applied_as_read := (fun evs : list (@event Op) =>
  applications evs = (fun operation => (operation, sync operation)) <$> pulled_truthy truthy evs).

Lemma applied_as_read_app (evs evs' : list (@event Op)) :
  applied_as_read evs -> applied_as_read evs' -> applied_as_read (evs ++ evs').
Proof.
  unfold applications, pulled_truthy. intros He He'.
  rewrite !omap_app, fmap_app. now rewrite He, He'.
Qed.

Lemma exec_loop_applications iterable envs (st : state) :
  applied_as_read (trace st) ->
  applied_as_read (trace (final (exec_loop iterable envs st))).
Proof.
  revert envs st. induction iterable as [|operation rest IH]; intros envs st Hi.
  all: destruct (throttle (hd idle envs) st) as [ys [st1|st1 e]] eqn:Ht.
  all: try (rewrite (exec_loop_stop _ _ _ _ _ _ Ht); simpl;
            destruct (throttle_stop _ _ _ _ _ Ht) as (_ & _ & -> & _);
            now apply applied_as_read_app).
  all: assert (Hj : applied_as_read (trace st1))
    by (destruct (throttle_continue _ _ _ _ Ht) as (_ & _ & _ & (evs & -> & Hevs));
        apply applied_as_read_app; [assumption|];
        destruct Hevs as [->|[q ->]]; reflexivity).
  - rewrite (exec_loop_end _ _ _ _ _ Ht) by now left. simpl.
    now apply applied_as_read_app.
  - destruct (truthy operation) eqn:Hop.
    + destruct (dispatch operation (pull (Some operation) (hd idle envs) st1))
        as [zs [st2|st2 e]] eqn:Hd.
      * rewrite (exec_loop_next _ _ _ _ _ _ _ _ Ht Hop Hd). simpl.
        apply IH. revert Hd. unfold ExecStream.dispatch.
        destruct (sync operation) eqn:Hs.
        -- destruct (execute operation); intros Heq; inversion Heq; subst.
           simpl. rewrite <- app_assoc. apply applied_as_read_app; [assumption|].
           unfold applications, pulled_truthy. simpl. rewrite Hop. simpl. now rewrite Hs.
        -- intros Heq; inversion Heq; subst.
           simpl. rewrite <- app_assoc. apply applied_as_read_app; [assumption|].
           unfold applications, pulled_truthy. simpl. rewrite Hop. simpl. now rewrite Hs.
      * rewrite (exec_loop_abort _ _ _ _ _ _ _ _ _ Ht Hop Hd). simpl.
        revert Hd. unfold ExecStream.dispatch.
        destruct (sync operation) eqn:Hs.
        -- destruct (execute operation); intros Heq; inversion Heq; subst.
           simpl. rewrite <- app_assoc. apply applied_as_read_app; [assumption|].
           unfold applications, pulled_truthy. simpl. rewrite Hop. simpl. now rewrite Hs.
        -- intros Heq; inversion Heq.
    + rewrite (exec_loop_end _ _ _ _ _ Ht) by (right; eauto). simpl.
      apply applied_as_read_app; [assumption|].
      unfold applications, pulled_truthy. simpl. now rewrite Hop.
Qed.

Lemma drawn_succeed done (fs : gmap nat Op) :
  drawn_from done fs ->
  (forall id operation, fs !! id = Some operation -> succeeds operation) ->
  Forall succeeds (done.*2).
Proof.
  intros [_ Hin] Hs. apply Forall_fmap, Forall_forall.
  intros [id operation] Hd. simpl. eapply Hs, Hin, Hd.
Qed.

(** With truthy operations on all of which the callable returns, the run
    reads the whole iterable and ends normally, and the operations of the
    pairs it yields are the operations in flight at the start and those of
    the iterable, each once. *)
Lemma exec_loop_all_succeed iterable envs (st : state) :
  Forall (fun operation => truthy operation = true) iterable ->
  Forall succeeds iterable ->
  (forall id operation, futures st !! id = Some operation ->
                        id < issued st /\ succeeds operation) ->
  let r := exec_loop iterable envs st in
  how r = Exhausted /\ unread r = [] /\
  (yielded r).*1 ≡ₚ (map_to_list (futures st)).*2 ++ iterable.
Proof.
  revert envs st.
  induction iterable as [|operation rest IH]; intros envs st Htr Hsu Hst.
  all: destruct (throttle (hd idle envs) st) as [ys [st1|st1 e]] eqn:Ht.
  all: try (exfalso; destruct (throttle_stop _ _ _ _ _ Ht)
              as (_ & _ & _ & done & x & _ & Hd & Hcol);
            apply drawn_succeed in Hd; [|intros id o Hl; now apply (Hst id o)];
            apply collect_succeed_ops in Hd as [Hn _];
            rewrite Hcol in Hn; discriminate Hn).
  all: destruct (throttle_continue _ _ _ _ Ht)
         as (_ & Hiss & (done & Hd & Hf & Hcol & _) & _).
  all: pose proof (drawn_from_split _ _ Hd) as Hsplit; rewrite <- Hf in Hsplit.
  all: assert (Hys : ys.*1 = done.*2)
         by (pose proof (drawn_succeed _ _ Hd (fun id o Hl => proj2 (Hst id o Hl))) as Hds;
             apply collect_succeed_ops in Hds as [_ Hds];
             now rewrite Hcol in Hds).
  all: assert (Hst1 : forall id o, futures st1 !! id = Some o ->
                                   id < issued st1 /\ succeeds o)
         by (intros id o Hl; rewrite Hf in Hl;
             apply lookup_difference_Some in Hl as [Hl _];
             rewrite Hiss; now apply Hst).
  - cbv zeta. rewrite (exec_loop_end _ _ _ _ _ Ht) by now left.
    unfold ExecStream.drain, ExecStream.pull. simpl.
    set (all := all_completed _ _).
    assert (Hall : all ≡ₚ map_to_list (futures st1)) by apply all_completed_perm.
    assert (Hsa : Forall succeeds (all.*2)).
    { apply Forall_fmap, Forall_forall. intros [id o] Hin. simpl.
      rewrite Hall in Hin. apply elem_of_map_to_list in Hin.
      now apply (Hst1 id o). }
    apply collect_succeed_ops in Hsa as [Hn Hzs].
    destruct (collect (all.*2)) as [zs e]. simpl in Hn, Hzs. subst e. simpl.
    split; [reflexivity|split; [reflexivity|]].
    rewrite fmap_app, Hys, Hzs, Hall, Hsplit, fmap_app.
    rewrite app_nil_r. reflexivity.
  - pose proof (Forall_inv Htr) as Hop. pose proof (Forall_inv Hsu) as [r Hr].
    simpl in Hop.
    apply Forall_inv_tail in Htr, Hsu.
    destruct (sync operation) eqn:Hs.
    + cbv zeta. erewrite exec_loop_next; try eassumption;
        [|unfold ExecStream.dispatch, ExecStream.execute; rewrite Hs, Hr; reflexivity].
      destruct (IH (tl envs)
                   (log (Called operation)
                      (pull (Some operation) (hd idle envs) st1)) Htr Hsu)
        as (Hh & Hu & Hp); [exact Hst1|].
      simpl. split; [assumption|split; [assumption|]].
      rewrite !fmap_app, Hp, Hys. simpl. rewrite Hsplit, fmap_app.
      rewrite <- !app_assoc. apply Permutation_app_head.
      rewrite (Permutation_app_comm _ (_ :: rest)). simpl.
      apply Permutation_cons; [reflexivity|]. apply Permutation_app_comm.
    + cbv zeta. erewrite exec_loop_next; try eassumption;
        [|unfold ExecStream.dispatch; rewrite Hs; reflexivity].
      assert (Hfresh : futures st1 !! issued st1 = None).
      { destruct (futures st1 !! issued st1) as [o|] eqn:Hl; [|reflexivity].
        apply Hst1 in Hl as [Hl _]. lia. }
      destruct (IH (tl envs)
                   (submit operation (pull (Some operation) (hd idle envs) st1))
                   Htr Hsu)
        as (Hh & Hu & Hp).
      { intros id o. simpl. intros Hl.
        apply lookup_insert_Some in Hl as [[<- <-]|[Hne Hl]].
        - split; [lia|now exists r].
        - apply Hst1 in Hl as [Hl Ho]. split; [lia|assumption]. }
      simpl. split; [assumption|split; [assumption|]].
      rewrite app_nil_r, fmap_app, Hp, Hys. simpl.
      rewrite map_to_list_insert by exact Hfresh. simpl.
      rewrite Hsplit, fmap_app. rewrite <- !app_assoc.
      apply Permutation_app_head. apply Permutation_middle.
Qed.

Local Abbreviation results := (Forall (fun p : Op * R => callable p.1 = Returns p.2)).

Lemma collect_results (ops : list Op) : results (fst (collect ops)).
Proof.
  induction ops as [|operation ops IH]; simpl; [constructor|].
  unfold ExecStream.execute. destruct (callable operation) as [r|x] eqn:Hc.
  - destruct (collect ops) as [ys e]. simpl in *. now constructor.
  - constructor.
Qed.

(** Every pair a run yields is an operation with what the callable returns
    on it. *)
Lemma exec_loop_results iterable envs (st : state) :
  results (yielded (exec_loop iterable envs st)).
Proof.
  revert envs st. induction iterable as [|operation rest IH]; intros envs st.
  all: destruct (throttle (hd idle envs) st) as [ys [st1|st1 e]] eqn:Ht.
  all: try (rewrite (exec_loop_stop _ _ _ _ _ _ Ht); simpl;
            destruct (throttle_stop _ _ _ _ _ Ht) as (_ & _ & _ & done & x & _ & _ & Hcol);
            pose proof (collect_results (done.*2)) as Hres;
            now rewrite Hcol in Hres).
  all: assert (Hys : results ys)
         by (destruct (throttle_continue _ _ _ _ Ht) as (_ & _ & (done & _ & _ & Hcol & _) & _);
             pose proof (collect_results (done.*2)) as Hres;
             now rewrite Hcol in Hres).
  all: assert (Hdr : forall st2 : state, results (fst (drain (hd idle envs) st2)))
         by (intros st2; unfold ExecStream.drain;
             pose proof (collect_results
                           ((all_completed (drained (hd idle envs)) (futures st2)).*2)) as Hres;
             destruct (collect _) as [zs [x|]]; exact Hres).
  - rewrite (exec_loop_end _ _ _ _ _ Ht) by now left. simpl.
    apply Forall_app. split; [exact Hys|apply Hdr].
  - destruct (truthy operation) eqn:Hop.
    + destruct (dispatch operation (pull (Some operation) (hd idle envs) st1))
        as [zs [st2|st2 e]] eqn:Hd.
      all: assert (Hzs : results zs)
             by (revert Hd; unfold ExecStream.dispatch, ExecStream.execute;
                 destruct (sync operation);
                 [destruct (callable operation) eqn:Hc|];
                 intros Heq; inversion Heq; subst; repeat constructor; exact Hc).
      * rewrite (exec_loop_next _ _ _ _ _ _ _ _ Ht Hop Hd). simpl.
        rewrite !Forall_app. auto.
      * rewrite (exec_loop_abort _ _ _ _ _ _ _ _ _ Ht Hop Hd). simpl.
        rewrite !Forall_app. auto.
    + rewrite (exec_loop_end _ _ _ _ _ Ht) by (right; eauto). simpl.
      apply Forall_app. split; [exact Hys|apply Hdr].
Qed.


End ExecFacts.

Section ExecSamples.
Import ExecStream.

Local Abbreviation five := ["a"; "bb"; "ccc"; "dddd"; "eeeee"]%string.
Local Abbreviation exec_stream_of := (exec_stream (L:=bucket) path_truthy upload).
Local Abbreviation exec_loop_of := (exec_loop (L:=bucket) path_truthy upload).

(** A pooled task that raises: the exception shows when its result is
    collected, here in the final wait, after the pair of a task visited
    before it. *)
Example exec_stream_locked :
  let r := exec_stream_of never_sync 10%Q ["a"; "locked"; "bb"]%string 10 [] in
  yielded r = [("bb"%string, 2)] /\ how r = Failed "PermissionError"%string /\
  applications (trace (final r))
    = [("a"%string, false); ("locked"%string, false); ("bb"%string, false)].
Proof. vm_compute. repeat split. Qed.

(** With [capacity=1] and [rate=1] the second and the third task are in
    the set together. *)
Example exec_stream_two_in_flight :
  let r := exec_stream_of never_sync 1%Q ["a"; "b"; "c"]%string 1 [] in
  (fun st => size (futures st)) <$> snapshots r = [1; 1; 2].
Proof. vm_compute. reflexivity. Qed.

(** C2 as stated fails on the code. A run over the one operation
    "manifest", for which [sync] is true, with a bucket of 10 tokens: the
    pair is yielded and nothing is submitted, but the iteration that reads
    the operation has taken a token, 9 are left after it. *)
Lemma exec_stream_sync_debits :
  let st0 := on_entry (Op:=string) (L:=bucket) 10%Q 10 in
  let r := exec_stream_of is_manifest 10%Q ["manifest"]%string 10 [] in
  yielded r = [("manifest"%string, 8)] /\
  issued (final r) = 0 /\
  tokens (limiter st0) = 10%Q /\
  exists st1,
    snapshots r = [st1] /\
    trace st1 = [Consumed true; Pulled (Some "manifest"%string); Called "manifest"%string] /\
    tokens (limiter st1) = 9%Q /\
    limiter st1 <> limiter st0.
Proof.
  cbv zeta. split; [vm_compute; reflexivity|].
  split; [vm_compute; reflexivity|]. split; [reflexivity|].
  eexists. split; [vm_compute; reflexivity|].
  split; [reflexivity|]. split; [reflexivity|]. discriminate.
Qed.

Lemma exec_loop_sync_witness :
  let st := on_entry (Op:=string) (L:=bucket) 10%Q 10 in
  let st1 := log (Consumed true)
               (with_limiter (snd (consume (limiter st) (now st))) st) in
  let st2 := log (Called "manifest"%string)
               (pull (Some "manifest"%string) (hd idle []) st1) in
  exec_loop_of is_manifest 10%Q ("manifest" :: ["a"])%string [] st =
    after ([] ++ [("manifest"%string, 8)]) st2
          (exec_loop_of is_manifest 10%Q ["a"]%string (tl []) st2) /\
  limiter st1 = snd (consume (limiter st) (now st)) /\
  limiter st2 = limiter st1 /\
  futures st2 = futures st1 /\
  issued st2 = issued st1 /\
  trace st2 = trace st1 ++ [Pulled (Some "manifest"%string); Called "manifest"%string].
Proof.
  apply (exec_loop_sync (L:=bucket) path_truthy upload is_manifest 10%Q
           "manifest"%string ["a"]%string []
           (on_entry (Op:=string) (L:=bucket) 10%Q 10) []).
  - reflexivity.
  - reflexivity.
  - reflexivity.
  - reflexivity.
Defined.


(** C4 as stated fails on the code. With [capacity=2], a rate that never
    blocks and five operations, the set of futures holds 1, 2, 3, 4 and
    then 5 tasks at the ends of the five iterations: more than 2. *)
Lemma exec_stream_exceeds_capacity :
  let capacity := 2 in
  let r := exec_stream_of never_sync 1000%Q five capacity
             (repeat (slow_input (1 # 100)) 6) in
  (fun st => size (futures st)) <$> snapshots r = [1; 2; 3; 4; 5] /\
  ~ Forall (fun st => size (futures st) <= capacity) (snapshots r).
Proof.
  cbv zeta.
  assert (Hsizes : (fun st => size (futures st)) <$>
                     snapshots (exec_stream_of never_sync 1000%Q five 2
                                  (repeat (slow_input (1 # 100)) 6))
                   = [1; 2; 3; 4; 5])
    by (vm_compute; reflexivity).
  split; [exact Hsizes|].
  intros Hall.
  assert (H2 : Forall (fun n => n <= 2) [1; 2; 3; 4; 5])
    by (rewrite <- Hsizes; apply Forall_fmap; exact Hall).
  do 2 apply Forall_inv_tail in H2. apply Forall_inv in H2. lia.
Qed.

Lemma exec_loop_pooled_raise_witness :
  (forall rest envs (st : state (Op:=string) (L:=bucket)) ys st1,
     throttle upload 10%Q (hd idle envs) st = (ys, Continue st1) ->
     let st2 := submit "locked"%string (pull (Some "locked"%string) (hd idle envs) st1) in
     exec_loop_of never_sync 10%Q ("locked"%string :: rest) envs st =
       after ys st2 (exec_loop_of never_sync 10%Q rest (tl envs) st2) /\
     futures st2 !! issued st1 = Some "locked"%string) /\
  (forall pre post,
     snd (collect upload pre) = None ->
     collect upload (pre ++ "locked"%string :: post)
       = (fst (collect upload pre), Some "PermissionError"%string)) /\
  (forall iterable envs (st : state (Op:=string) (L:=bucket)) pre post,
     fst (consume (limiter st) (now st)) = false ->
     (first_completed (completed (hd idle envs)) (futures st)).*2
       = pre ++ "locked"%string :: post ->
     snd (collect upload pre) = None ->
     let r := exec_loop_of never_sync 10%Q iterable envs st in
     yielded r = fst (collect upload pre) /\ how r = Failed "PermissionError"%string /\
     unread r = iterable /\ snapshots r = []) /\
  (forall iterable envs (st : state (Op:=string) (L:=bucket)) ys st1 pre post,
     throttle upload 10%Q (hd idle envs) st = (ys, Continue st1) ->
     iterable = [] \/ (exists o rest, iterable = o :: rest /\ path_truthy o = false) ->
     (all_completed (drained (hd idle envs)) (futures st1)).*2
       = pre ++ "locked"%string :: post ->
     snd (collect upload pre) = None ->
     let r := exec_loop_of never_sync 10%Q iterable envs st in
     yielded r = ys ++ fst (collect upload pre) /\ how r = Failed "PermissionError"%string /\
     unread r = tail iterable /\ snapshots r = []).
Proof.
  apply (exec_loop_pooled_raise (L:=bucket) path_truthy upload never_sync 10%Q
           "locked"%string "PermissionError"%string).
  - reflexivity.
  - reflexivity.
  - reflexivity.
Defined.


(** A whole run with a falsy item: the empty path ends the run, the task in
    flight is collected, and the path after the empty one is never read. *)
Example exec_stream_falsy :
  let r := exec_stream_of never_sync 10%Q ["a"%string; EmptyString; "b"%string] 10 [] in
  yielded r = [("a"%string, 1)] /\ how r = Exhausted /\ unread r = ["b"%string] /\
  trace (final r)
    = [Consumed true; Pulled (Some "a"%string); Submitted 0 "a"%string;
       Consumed true; Pulled (Some EmptyString)].
Proof. vm_compute. repeat split. Qed.

End ExecSamples.

(** ** chunker *)

Section ChunkerFacts.
Import Chunker.
Context {T : Type}.

Lemma chunker_unfold (it : list T) n :
  chunker it n =
  match take n it with
  | [] => []
  | chunk => chunk :: chunker (drop n it) n
  end.
Proof.
  funelim (chunker it n);
    match goal with E : take _ _ = _ |- _ => now rewrite E end.
Qed.

Lemma chunker_zero (it : list T) : chunker it 0 = [].
Proof. now rewrite chunker_unfold. Qed.

Lemma chunker_nil n : chunker ([] : list T) n = [].
Proof. rewrite chunker_unfold. now destruct n. Qed.

Lemma chunker_cons (x : T) it n :
  chunker (x :: it) (S n) = (x :: take n it) :: chunker (drop n it) (S n).
Proof. now rewrite chunker_unfold. Qed.

(** Induction on the chunks: a property that holds of the empty input and
    goes from what is left after a chunk to the whole holds of every input. *)
Lemma chunker_ind (n : nat) (P : list T -> Prop) :
  P [] ->
  (forall x it, P (drop n it) -> P (x :: it)) ->
  forall it, P it.
Proof.
  intros Hnil Hstep it.
  induction it as [it IH] using (induction_ltof1 _ (@List.length T)).
  destruct it as [|x it]; [exact Hnil|].
  apply Hstep, IH. unfold ltof. rewrite length_drop. simpl. lia.
Qed.

(** X1. Cut into chunks of [n >= 1] items, the input is all there: the
    chunks put end to end are the input, nothing lost, nothing repeated,
    nothing moved. *)
Theorem chunker_concat (it : list T) n :
  0 < n -> concat (chunker it n) = it.
Proof.
  intros Hn. destruct n as [|n]; [lia|]. clear Hn.
  induction it as [|x it IH] using (chunker_ind n); [now rewrite chunker_nil|].
  rewrite chunker_cons. simpl. rewrite IH. f_equal. apply take_drop.
Qed.

(** X2. Every chunk holds at least one item and at most [n], and every chunk
    but the last holds exactly [n]. *)
Theorem chunker_sizes (it : list T) n i chunk :
  chunker it n !! i = Some chunk ->
  (0 < List.length chunk /\ List.length chunk <= n) /\
  (S i < List.length (chunker it n) -> List.length chunk = n).
Proof.
  destruct n as [|n]; [now rewrite chunker_zero|].
  revert i. induction it as [|x it IH] using (chunker_ind n); intros i.
  - now rewrite chunker_nil.
  - rewrite chunker_cons. destruct i as [|i]; simpl.
    + intros [= <-]. simpl. rewrite length_take. split; [lia|].
      intros Hmore.
      destruct (decide (n <= List.length it)) as [Hle|Hgt]; [lia|].
      rewrite drop_ge, chunker_nil in Hmore by lia. simpl in Hmore. lia.
    + intros Hi. destruct (IH i Hi) as [Hlen Hfull]. split; [exact Hlen|].
      intros Hmore. apply Hfull. lia.
Qed.

(** X3. The number of chunks is the length of the input divided by [n],
    rounded up. *)
Theorem chunker_length (it : list T) n :
  0 < n ->
  List.length (chunker it n) = (List.length it + n - 1) / n.
Proof.
  intros Hn. destruct n as [|n]; [lia|]. clear Hn.
  induction it as [|x it IH] using (chunker_ind n).
  - rewrite chunker_nil. cbn [List.length]. rewrite Nat.div_small; lia.
  - rewrite chunker_cons. cbn [List.length]. rewrite IH, length_drop.
    destruct (decide (n <= List.length it)) as [Hle|Hgt].
    + replace (S (List.length it) + S n - 1) with
        ((List.length it - n + S n - 1) + 1 * S n) by lia.
      rewrite Nat.div_add by lia. lia.
    + replace (List.length it - n + S n - 1) with n by lia.
      rewrite Nat.div_small by lia.
      replace (S (List.length it) + S n - 1) with
        (List.length it + 1 * S n) by lia.
      rewrite Nat.div_add by lia. rewrite Nat.div_small by lia. lia.
Qed.

(** X4. No chunk is yielded exactly when [n] is 0 or the input is empty:
    with [n = 0] the first chunk is empty and the generator ends at once, so
    an input that is not empty is dropped whole. *)
Theorem chunker_empty (it : list T) n :
  chunker it n = [] <-> n = 0 \/ it = [].
Proof.
  split.
  - intros He. destruct n as [|n]; [now left|right].
    destruct it as [|x it]; [reflexivity|]. now rewrite chunker_cons in He.
  - intros [->| ->]; [apply chunker_zero|apply chunker_nil].
Qed.

End ChunkerFacts.

(** ** ListType and UpdateType *)

Section StringFacts.
Import Params.

Lemma split_nonempty sep s : split sep s <> [].
Proof.
  destruct s as [|c s]; simpl; [discriminate|].
  destruct (Ascii.eqb c sep); [discriminate|].
  destruct (split sep s); discriminate.
Qed.

Lemma split_length sep s : List.length (split sep s) = S (count sep s).
Proof.
  induction s as [|c s IH]; simpl; [reflexivity|].
  destruct (Ascii.eqb c sep); simpl; [now rewrite IH|].
  destruct (split sep s); simpl in *; [discriminate IH|exact IH].
Qed.

Lemma count_app c s t : count c (s ++ t)%string = count c s + count c t.
Proof. induction s as [|c' s IH]; simpl; [reflexivity|]. rewrite IH. lia. Qed.

(** The pieces hold no separator. *)
Lemma split_clean sep s : Forall (fun piece => count sep piece = 0) (split sep s).
Proof.
  induction s as [|c s IH]; simpl; [now repeat constructor|].
  destruct (Ascii.eqb c sep) eqn:Hc; [now constructor|].
  destruct (split sep s) as [|piece pieces].
  - constructor; [simpl; now rewrite Hc|constructor].
  - apply Forall_cons in IH as [Hp Hps]. constructor; [|exact Hps].
    simpl. now rewrite Hc.
Qed.

Lemma join_cons sep piece pieces :
  pieces <> [] ->
  join sep (piece :: pieces) = (piece ++ sep ++ join sep pieces)%string.
Proof. now destruct pieces. Qed.

Lemma join_String sep c piece pieces :
  join sep (String c piece :: pieces) = String c (join sep (piece :: pieces)).
Proof. now destruct pieces. Qed.

(** Joining the pieces with the separator gives the string back. *)
Lemma join_split sep s : join (String sep EmptyString) (split sep s) = s.
Proof.
  induction s as [|c s IH]; simpl split; [reflexivity|].
  destruct (Ascii.eqb c sep) eqn:Hc.
  - apply Ascii.eqb_eq in Hc as ->.
    rewrite join_cons by apply split_nonempty. simpl. now rewrite IH.
  - pose proof (split_nonempty sep s) as Hne.
    destruct (split sep s) as [|piece pieces]; [contradiction|].
    rewrite join_String. now rewrite IH.
Qed.

Lemma split_app_sep sep piece s :
  count sep piece = 0 ->
  split sep (piece ++ String sep s)%string = piece :: split sep s.
Proof.
  induction piece as [|c piece IH]; simpl; intros Hc.
  - now rewrite Ascii.eqb_refl.
  - destruct (Ascii.eqb c sep); [discriminate Hc|]. now rewrite IH.
Qed.

Lemma split_one sep piece : count sep piece = 0 -> split sep piece = [piece].
Proof.
  induction piece as [|c piece IH]; simpl; intros Hc; [reflexivity|].
  destruct (Ascii.eqb c sep); [discriminate Hc|]. now rewrite IH.
Qed.

(** Splitting what was joined gives the pieces back, when no piece holds
    the separator. *)
Lemma split_join sep pieces :
  pieces <> [] ->
  Forall (fun piece => count sep piece = 0) pieces ->
  split sep (join (String sep EmptyString) pieces) = pieces.
Proof.
  intros Hne Hall. induction Hall as [|piece pieces Hp Hps IH]; [contradiction|].
  destruct pieces as [|piece' pieces].
  - now apply split_one.
  - rewrite join_cons by discriminate.
    change (String sep EmptyString ++ ?x)%string with (String sep x).
    rewrite split_app_sep by exact Hp. f_equal. now apply IH.
Qed.

Section StripFacts.
Variable isspace : ascii -> bool.

Lemma count_lstrip c s : count c (lstrip isspace s) <= count c s.
Proof.
  induction s as [|c' s IH]; simpl; [lia|].
  destruct (isspace c'); simpl; lia.
Qed.

Lemma count_rstrip c s : count c (rstrip isspace s) <= count c s.
Proof.
  induction s as [|c' s IH]; simpl; [lia|].
  destruct (rstrip isspace s) as [|c'' kept]; [destruct (isspace c')|];
    simpl in *; lia.
Qed.

Lemma count_strip c s : count c (strip isspace s) <= count c s.
Proof.
  unfold strip. etransitivity; [apply count_rstrip|apply count_lstrip].
Qed.

Lemma lstrip_begins s : begins_with_space isspace (lstrip isspace s) = false.
Proof.
  induction s as [|c s IH]; simpl; [reflexivity|].
  destruct (isspace c) eqn:Hc; [exact IH|]. simpl. exact Hc.
Qed.

Lemma rstrip_begins s :
  begins_with_space isspace s = false ->
  begins_with_space isspace (rstrip isspace s) = false.
Proof.
  destruct s as [|c s]; simpl; [reflexivity|]. intros Hc.
  destruct (rstrip isspace s); [now rewrite Hc|exact Hc].
Qed.

Lemma rstrip_ends s : ends_with_space isspace (rstrip isspace s) = false.
Proof.
  induction s as [|c s IH]; simpl; [reflexivity|].
  destruct (rstrip isspace s) as [|c' kept] eqn:Hr.
  - destruct (isspace c) eqn:Hc; [reflexivity|]. simpl. exact Hc.
  - exact IH.
Qed.

Lemma strip_clean s :
  begins_with_space isspace (strip isspace s) = false /\
  ends_with_space isspace (strip isspace s) = false.
Proof.
  split; [apply rstrip_begins, lstrip_begins|apply rstrip_ends].
Qed.

(** X5. The text of a list parameter gives one item more than it has
    commas, so never an empty list; no item holds a comma, and none begins
    or ends with whitespace. *)
Theorem list_convert_text text :
  let items := list_convert isspace (PStr text) in
  List.length items = S (count "," text) /\
  Forall (fun item => count "," item = 0 /\
                      begins_with_space isspace item = false /\
                      ends_with_space isspace item = false) items.
Proof.
  simpl. rewrite length_map, split_length. split; [reflexivity|].
  apply Forall_map. pose proof (split_clean "," text) as Hclean.
  induction Hclean as [|piece pieces Hp _ IH]; constructor; [|exact IH].
  split; [|apply strip_clean].
  pose proof (count_strip "," piece). lia.
Qed.

(** X6. Items written with commas between them are read back as they are:
    for a list that is not empty, of items without a comma that neither
    begin nor end with whitespace, converting the joined text gives the
    list. *)
Theorem list_convert_join items :
  items <> [] ->
  Forall (fun item => count "," item = 0 /\ strip isspace item = item) items ->
  list_convert isspace (PStr (join "," items)) = items.
Proof.
  intros Hne Hall. simpl.
  rewrite split_join; [|exact Hne|].
  - clear Hne.
    induction Hall as [|item items [_ Hs] _ IH]; cbn [List.map]; [reflexivity|].
    now rewrite Hs, IH.
  - apply (Forall_impl _ _ _ Hall). now intros item [Hc _].
Qed.

Lemma nested_update_pairs {X : Type} (tuples : list (list string)) :
  (Forall (fun t => List.length t = 2) tuples ->
   exists pairs, nested_update (X:=X) tuples = Returns pairs /\
                 List.length pairs = List.length tuples) /\
  (~ Forall (fun t => List.length t = 2) tuples ->
   nested_update (X:=X) tuples = Raises ValueError).
Proof.
  induction tuples as [|t tuples [IHok IHbad]]; simpl.
  - split; [intros _; now exists []|]. intros Hn. exfalso. apply Hn. constructor.
  - destruct t as [|column [|update [|extra t]]].
    1,2,4: split; [intros Hall; apply Forall_inv in Hall; simpl in Hall; lia
                  |reflexivity].
    split.
    + intros Hall. apply Forall_inv_tail in Hall.
      destruct (IHok Hall) as (pairs & -> & Hlen).
      eexists. split; [reflexivity|]. simpl. now rewrite Hlen.
    + intros Hn. rewrite IHbad; [reflexivity|].
      intros Hall. apply Hn. now constructor.
Qed.

(** What [nested_set] raises is not taken for a failed unpacking. *)
Lemma apply_updates_error {D X : Type}
    (nested_set : D -> list string -> string -> outcome D X) pairs :
  forall update, apply_updates nested_set update pairs <> Raises ValueError.
Proof.
  induction pairs as [|[nested_key val] pairs IH]; intros update; simpl.
  - discriminate.
  - destruct (nested_set update nested_key val); [apply IH|discriminate].
Qed.


(** X8. When the text can be unpacked, every update is its item cut at the
    [=] and the part before cut at the dots, with nothing else changed: key
    and value put together again with the dots and the [=] are the stripped
    item, the value holds no [=], and no part of the key holds a dot. *)
Theorem update_convert_pairs {X : Type} text pairs :
  nested_update (X:=X) (update_tuples isspace text) = Returns pairs ->
  Forall2 (fun item (pair : list string * string) =>
             (join "." (fst pair) ++ "=" ++ snd pair)%string = strip isspace item /\
             count "=" (snd pair) = 0 /\
             Forall (fun part => count "." part = 0) (fst pair))
          (split "," text) pairs.
Proof.
  unfold update_tuples. generalize (split "," text) as items.
  intros items. revert pairs.
  induction items as [|item items IH]; simpl; intros pairs.
  - intros [= <-]. constructor.
  - pose proof (join_split "=" (strip isspace item)) as Hjoin.
    pose proof (split_clean "=" (strip isspace item)) as Hclean.
    destruct (split "=" (strip isspace item)) as [|column [|update [|extra t]]];
      try discriminate.
    destruct (nested_update _) as [rest|e]; [|discriminate].
    intros [= <-]. constructor; [|now apply IH].
    simpl. split; [|split].
    + now rewrite join_split.
    + apply Forall_inv_tail, Forall_inv in Hclean. exact Hclean.
    + apply split_clean.
Qed.

End StripFacts.
End StringFacts.

(** ** retry, further *)

Section BackoffFacts.
Import Retry.

(** X9. For attempts from 0 up to 1023, where the power of the source is a
    finite float, the sleep is more than nothing and at most 4 seconds, it
    does not shrink from one attempt to the next, and from attempt 3 on it
    is 4 seconds. *)
Theorem backoff_bounds (attempt later : Z) :
  (0 <= attempt)%Z -> (attempt <= later)%Z -> (later < 1024)%Z ->
  (0 < backoff attempt)%Q /\ (backoff attempt <= 4)%Q /\
  (backoff attempt <= backoff later)%Q /\
  ((3 <= attempt)%Z -> (backoff attempt == 4)%Q).
Proof.
  intros H0 Hle _. unfold backoff.
  assert (Hpos : forall a, (0 < (1 # 2) * 2 ^ a)%Q).
  { intros a. apply Qmult_lt_0_compat; [reflexivity|].
    apply Qpower_0_lt. reflexivity. }
  assert (Hmono : forall a b, (a <= b)%Z -> ((1 # 2) * 2 ^ a <= (1 # 2) * 2 ^ b)%Q).
  { intros a b Hab. apply Qmult_le_l; [reflexivity|].
    apply Qpower_le_compat_l; [exact Hab|discriminate]. }
  split; [|split; [|split]].
  - apply Q.min_glb_lt; [apply Hpos|reflexivity].
  - apply Q.le_min_r.
  - apply Q.min_le_compat_r, Hmono, Hle.
  - intros H3. apply Q.min_r.
    apply Qle_trans with ((1 # 2) * 2 ^ 3)%Q; [discriminate|].
    apply Hmono, H3.
Qed.

End BackoffFacts.

Section RetryMore.
Import Retry.
Context {A K St V X : Type}.
Variable callable : A -> K -> St -> outcome V X * St.

Lemma sleeps_app (w w' : world St X) (es : list (effect X)) :
  effects w' = effects w ++ es ->
  sleeps w' =
  sleeps w ++ omap (fun e => match e with Slept q => Some q | _ => None end) es.
Proof. unfold sleeps. intros ->. apply omap_app. Qed.

(** The sleeps of a call that gets through after [n] failures. *)
Lemma retry_succeeds_sleeps args kw w n v :
  succeeds_after callable args (kw_rest kw) n (cstate w) v ->
  forall fuel, n < fuel ->
  sleeps (snd (retry callable fuel args kw w)) =
  sleeps w ++ List.map (fun i => backoff (default 0%Z (kw_attempt kw) + Z.of_nat i))
                       (seq 0 n).
Proof.
  remember (kw_rest kw) as rest eqn:Hrest. remember (cstate w) as s eqn:Hs.
  intros Hsa. revert kw w Hrest Hs.
  induction Hsa as [s v s' Hc|n s x s' v Hc _ IH]; intros kw w -> -> fuel Hf;
    destruct fuel as [|fuel]; try lia.
  - simpl. rewrite Hc. simpl.
    rewrite (sleeps_app w _ [Invoked]) by reflexivity. simpl.
    now rewrite !app_nil_r.
  - destruct (retry_raise callable fuel args kw w x s' Hc)
      as (kw' & w' & Hk & Ha & Hw & He & _ & ->).
    specialize (IH kw' w' (eq_sym Hk) (eq_sym Hw) fuel ltac:(lia)).
    assert (Hsl : sleeps w' = sleeps w ++ [backoff (default 0%Z (kw_attempt kw))]).
    { now rewrite (sleeps_app w w' _ He). }
    assert (Hout : sleeps (snd (match retry callable fuel args kw' w' with
                                | (Some (Returns _), w'') => (Some (Returns PyNone), w'')
                                | other => other
                                end))
                   = sleeps (snd (retry callable fuel args kw' w'))).
    { now destruct (retry callable fuel args kw' w') as [[[r|x']|] w'']. }
    rewrite Hout, IH, Hsl, Ha. simpl default.
    rewrite <- app_assoc. f_equal. simpl. f_equal.
    + f_equal. lia.
    + rewrite <- seq_shift, List.map_map. apply List.map_ext.
      intros i. f_equal. lia.
Qed.


End RetryMore.

(** ** exec_stream and parallelize *)

Section ExecMore.
Import ExecStream Parallelize.
Context {Op R X L : Type} `{RateLimiter L}.
Variable truthy : Op -> bool.
Variable callable : Op -> outcome R X.
Variable sync : Op -> bool.
Variable rate : Q.

Local Abbreviation state := (@state Op L).
Local Abbreviation collect := (collect callable).
Local Abbreviation throttle := (throttle callable rate).
Local Abbreviation drain := (drain callable).
Local Abbreviation dispatch := (dispatch callable sync).
Local Abbreviation exec_loop := (exec_loop truthy callable sync rate).
Local Abbreviation succeeds := (succeeds callable).

(** X11. A truthy operation for which [sync] is true and on which the
    callable raises [x]: the exception leaves the generator from the
    iteration that reads the operation; what the limiter block of that
    iteration yielded stays yielded, nothing is submitted, and the rest of
    the iterable is not read. *)
Theorem exec_loop_sync_raise operation rest envs (st : state) ys st1 x :
  truthy operation = true -> sync operation = true ->
  callable operation = Raises x ->
  throttle (hd idle envs) st = (ys, Continue st1) ->
  let st2 := log (Called operation) (pull (Some operation) (hd idle envs) st1) in
  let r := exec_loop (operation :: rest) envs st in
  yielded r = ys /\ how r = Failed x /\ unread r = rest /\ snapshots r = [] /\
  final r = st2 /\ futures st2 = futures st1 /\ issued st2 = issued st1.
Proof.
  intros Hop Hs Hx Ht st2 r. subst r.
  erewrite exec_loop_abort with (zs := []) (st2 := st2) (e := Failed x);
    try eassumption.
  - simpl. rewrite app_nil_r. repeat split.
  - unfold ExecStream.dispatch, ExecStream.execute. now rewrite Hs, Hx.
Qed.

Lemma collect_sub (ops : list Op) : (fst (collect ops)).*1 ⊆+ ops.
Proof.
  induction ops as [|operation ops IH]; simpl; [reflexivity|].
  unfold ExecStream.execute. destruct (callable operation) as [r|x].
  - destruct (collect ops) as [ys e]. simpl in *. now constructor.
  - apply submseteq_nil_l.
Qed.

Lemma collect_none (ops : list Op) ys :
  collect ops = (ys, None) -> ys.*1 = ops.
Proof.
  revert ys. induction ops as [|operation ops IH]; simpl; intros ys.
  - now intros [= <-].
  - unfold ExecStream.execute. destruct (callable operation) as [r|x]; [|discriminate].
    destruct (collect ops) as [zs e]. intros [= <- ->]. simpl.
    f_equal. now apply IH.
Qed.

Lemma drain_sub env (st : state) fs :
  futures st = fs ->
  (fst (drain env st)).*1 ⊆+ (map_to_list fs).*2.
Proof.
  intros <-. unfold ExecStream.drain.
  pose proof (collect_sub ((all_completed (drained env) (futures st)).*2)) as Hsub.
  rewrite (all_completed_perm (drained env) (futures st)) in Hsub at 2.
  now destruct (collect _) as [zs [x|]].
Qed.

(** The operations of the pairs a run yields are among the operations in
    flight at its start and those of the iterable, none more often than it
    is there. *)
Lemma exec_loop_submseteq iterable envs (st : state) fs :
  futures st = fs ->
  (forall id operation, fs !! id = Some operation -> id < issued st) ->
  (yielded (exec_loop iterable envs st)).*1
    ⊆+ (map_to_list fs).*2 ++ iterable.
Proof.
  revert envs st fs.
  induction iterable as [|operation rest IH]; intros envs st fs <- Hst.
  all: destruct (throttle (hd idle envs) st) as [ys [st1|st1 e]] eqn:Ht.
  all: try (rewrite (exec_loop_stop truthy callable sync rate _ _ _ _ _ _ Ht); simpl;
            destruct (throttle_stop callable rate _ _ _ _ _ Ht)
              as (_ & _ & _ & done & x & _ & Hd & Hcol);
            pose proof (collect_sub (done.*2)) as Hsub;
            rewrite Hcol in Hsub; simpl in Hsub;
            rewrite Hsub, (drawn_from_split _ _ Hd), fmap_app, <- app_assoc;
            apply submseteq_inserts_r; reflexivity).
  all: destruct (throttle_continue callable rate _ _ _ _ Ht)
         as (_ & Hiss & (done & Hd & Hf & Hcol & _) & _).
  all: pose proof (drawn_from_split _ _ Hd) as Hsplit; rewrite <- Hf in Hsplit.
  all: apply collect_none in Hcol.
  all: assert (Hst1 : forall id o, futures st1 !! id = Some o -> id < issued st1)
         by (intros id o Hl; rewrite Hf in Hl;
             apply lookup_difference_Some in Hl as [Hl _];
             rewrite Hiss; now apply (Hst id o)).
  all: rewrite Hsplit, fmap_app, <- app_assoc, <- Hcol.
  - rewrite (exec_loop_end truthy callable sync rate _ _ _ _ _ Ht) by now left. simpl.
    rewrite fmap_app, app_nil_r. apply submseteq_skips_l.
    now apply drain_sub.
  - destruct (truthy operation) eqn:Hop.
    + destruct (dispatch operation (pull (Some operation) (hd idle envs) st1))
        as [zs [st2|st2 e]] eqn:Hdis.
      * rewrite (exec_loop_next truthy callable sync rate _ _ _ _ _ _ _ _ Ht Hop Hdis). simpl.
        rewrite !fmap_app, <- app_assoc. apply submseteq_skips_l.
        revert Hdis. unfold ExecStream.dispatch, ExecStream.execute.
        destruct (sync operation).
        -- destruct (callable operation); intros Heq; inversion Heq; subst.
           simpl. apply submseteq_cons_middle. now apply IH.
        -- intros Heq; inversion Heq; subst. simpl.
           assert (Hfresh : futures st1 !! issued st1 = None).
           { destruct (futures st1 !! issued st1) as [o|] eqn:Hl; [|reflexivity].
             apply Hst1 in Hl. lia. }
           etransitivity; [apply (IH _ _ (<[issued st1 := operation]> (futures st1)))|].
           ++ reflexivity.
           ++ intros id o. simpl. intros Hl.
              apply lookup_insert_Some in Hl as [[<- <-]|[Hne Hl]]; [lia|].
              apply Hst1 in Hl. lia.
           ++ rewrite map_to_list_insert by exact Hfresh. simpl.
              apply Permutation_submseteq. apply Permutation_middle.
      * rewrite (exec_loop_abort truthy callable sync rate _ _ _ _ _ _ _ _ _ Ht Hop Hdis). simpl.
        revert Hdis. unfold ExecStream.dispatch, ExecStream.execute.
        destruct (sync operation).
        -- destruct (callable operation); intros Heq; inversion Heq; subst.
           rewrite app_nil_r. apply submseteq_inserts_r. reflexivity.
        -- intros Heq; inversion Heq.
    + rewrite (exec_loop_end truthy callable sync rate _ _ _ _ _ Ht) by (right; eauto). simpl.
      rewrite fmap_app. apply submseteq_skips_l.
      apply submseteq_inserts_r. now apply drain_sub.
Qed.

(** X12. Whatever the limiter, the schedule and the callable do, also when
    the run ends early or with an exception, the operations of the pairs
    [exec_stream] yields are operations of the iterable, none yielded more
    often than it occurs there. *)
Theorem exec_stream_no_repeat iterable capacity envs :
  let r := exec_stream truthy callable sync rate iterable capacity envs in
  (yielded r).*1 ⊆+ iterable.
Proof.
  cbv zeta.
  pose proof (exec_loop_submseteq iterable envs (on_entry rate capacity) _ eq_refl)
    as Hsub.
  simpl in Hsub. rewrite map_to_list_empty in Hsub. apply Hsub.
  intros id operation Hl. now rewrite lookup_empty in Hl.
Qed.

Lemma filter_none (ops : list Op) :
  Forall (fun operation => sync operation = false) ops ->
  List.filter sync ops = [].
Proof.
  induction 1 as [|operation ops Hs _ IH]; simpl; [reflexivity|].
  now rewrite Hs.
Qed.

(** With truthy operations on all of which the callable returns, and no
    operation in flight for which [sync] is true, the operations with
    [sync] come out in the order of the iterable. *)
Lemma exec_loop_sync_order iterable envs (st : state) fs :
  futures st = fs ->
  Forall (fun operation => truthy operation = true) iterable ->
  Forall succeeds iterable ->
  (forall id operation, fs !! id = Some operation ->
     id < issued st /\ succeeds operation /\ sync operation = false) ->
  List.filter sync (yielded (exec_loop iterable envs st)).*1
    = List.filter sync iterable.
Proof.
  revert envs st fs.
  induction iterable as [|operation rest IH]; intros envs st fs <- Htr Hsu Hst.
  all: destruct (throttle (hd idle envs) st) as [ys [st1|st1 e]] eqn:Ht.
  all: try (exfalso; destruct (throttle_stop callable rate _ _ _ _ _ Ht)
              as (_ & _ & _ & done & x & _ & Hd & Hcol);
            apply (drawn_succeed callable) in Hd;
              [|intros id o Hl; now apply (Hst id o)];
            apply (collect_succeed_ops callable) in Hd as [Hn _];
            rewrite Hcol in Hn; discriminate Hn).
  all: destruct (throttle_continue callable rate _ _ _ _ Ht)
         as (_ & Hiss & (done & Hd & Hf & Hcol & _) & _).
  all: apply collect_none in Hcol.
  all: assert (Hst1 : forall id o, futures st1 !! id = Some o ->
                        id < issued st1 /\ succeeds o /\ sync o = false)
         by (intros id o Hl; rewrite Hf in Hl;
             apply lookup_difference_Some in Hl as [Hl _];
             rewrite Hiss; now apply (Hst id o)).
  all: assert (Hys : List.filter sync ys.*1 = [])
         by (rewrite Hcol; apply filter_none, Forall_fmap, Forall_forall;
             intros [id o] Hin; simpl; destruct Hd as [_ Hd];
             apply Hd in Hin; now apply (Hst id o)).
  all: assert (Hdr : forall env (st2 : state), futures st2 = futures st1 ->
                       List.filter sync (fst (drain env st2)).*1 = [])
         by (intros env st2 Hf2; apply filter_none;
             pose proof (drain_sub env st2 _ Hf2) as Hsub;
             apply Forall_forall; intros o Hin;
             apply (elem_of_submseteq _ _ _ Hin) in Hsub as Hin';
             clear Hin; rename Hin' into Hin;
             apply list_elem_of_fmap in Hin as ([id o'] & -> & Hin);
             apply elem_of_map_to_list in Hin; now apply (Hst1 id o')).
  - rewrite (exec_loop_end truthy callable sync rate _ _ _ _ _ Ht) by now left.
    simpl. rewrite fmap_app, List.filter_app, Hys, Hdr; reflexivity.
  - pose proof (Forall_inv Htr) as Hop. pose proof (Forall_inv Hsu) as [r Hr].
    simpl in Hop. apply Forall_inv_tail in Htr, Hsu.
    destruct (sync operation) eqn:Hs.
    + erewrite exec_loop_next; try eassumption;
        [|unfold ExecStream.dispatch, ExecStream.execute; rewrite Hs, Hr; reflexivity].
      simpl. rewrite !fmap_app, !List.filter_app, Hys. simpl. rewrite Hs.
      f_equal. now apply (IH _ _ (futures st1)).
    + erewrite exec_loop_next; try eassumption;
        [|unfold ExecStream.dispatch; rewrite Hs; reflexivity].
      simpl. rewrite app_nil_r, fmap_app, List.filter_app, Hys, Hs. simpl.
      apply (IH _ _ (<[issued st1 := operation]> (futures st1)));
        [reflexivity|assumption|assumption|].
      intros id o Hl.
      apply lookup_insert_Some in Hl as [[<- <-]|[Hne Hl]].
      * simpl. split; [lia|]. split; [now exists r|exact Hs].
      * apply Hst1 in Hl as (Hl & Ho & Hso). simpl. split; [lia|auto].
Qed.


(** *** parallelize *)


Lemma results_zip (iterable : list Op) :
  Forall succeeds iterable ->
  zip iterable (fst (results callable iterable)) =
  omap (fun item => match callable item with
                    | Returns r => Some (item, r)
                    | Raises _ => None
                    end) iterable.
Proof.
  induction 1 as [|item rest [r Hr] _ IH]; simpl; [reflexivity|].
  rewrite Hr. destruct (results callable rest) as [rs e]. simpl in *.
  now rewrite IH.
Qed.

Lemma results_omap (ys : list (Op * R)) :
  Forall (fun p => callable p.1 = Returns p.2) ys ->
  omap (fun item => match callable item with
                    | Returns r => Some (item, r)
                    | Raises _ => None
                    end) ys.*1 = ys.
Proof.
  induction 1 as [|[item r] ys Hp _ IH]; [reflexivity|].
  simpl in Hp. cbn [fmap list_fmap omap list_omap fst]. rewrite Hp.
  cbn [fmap list_fmap] in IH. now rewrite IH.
Qed.


End ExecMore.

(** ** merge_streams, further *)

(** One iteration of the loop with two heads, under a name that the
    definitions of [Merge] do not use. *)
Lemma merge_loop_step {T E : Type} (truthy : T -> bool)
    (comparison : T -> T -> E + bool) h1 s1 h2 s2 :
  Merge.merge_loop truthy comparison (Some h1) s1 (Some h2) s2 =
  if truthy h1 && truthy h2 then
    match comparison h1 h2 with
    | inr true =>
        Merge.yield_first h1
          (Merge.merge_loop truthy comparison
             (fst (Merge.fetch s1)) (snd (Merge.fetch s1)) (Some h2) s2)
    | inr false =>
        Merge.yield_first h2
          (Merge.merge_loop truthy comparison
             (Some h1) s1 (fst (Merge.fetch s2)) (snd (Merge.fetch s2)))
    | inl e => ([], Merge.LoopRaised e)
    end
  else ([], Merge.LoopExit (Some h1) s1 (Some h2) s2).
Proof. apply merge_loop_unfold. Qed.

Section MergeMore.
Import Merge.
Context {T E : Type}.
Variable truthy : T -> bool.

Section Conservation.
Variable comparison : T -> T -> E + bool.

Lemma fetch_unread (s : list T) :
  option_list (fst (fetch s)) ++ snd (fetch s) = s.
Proof. now destruct s. Qed.

Lemma fetch_spent (s : list T) : fst (fetch s) = None -> snd (fetch s) = [].
Proof. now destruct s. Qed.

(** What the loop yields is made of the items it took from the two inputs,
    those of each input in their order; a head is [None] only when its
    input is at its end. *)
Lemma reaches_conserves c out c' :
  reaches truthy comparison c out c' ->
  exists p1 p2,
    option_list (head1 c) ++ stream1 c
      = p1 ++ option_list (head1 c') ++ stream1 c' /\
    option_list (head2 c) ++ stream2 c
      = p2 ++ option_list (head2 c') ++ stream2 c' /\
    p1 `sublist_of` out /\ p2 `sublist_of` out /\ out ≡ₚ p1 ++ p2 /\
    ((head1 c = None -> stream1 c = []) ->
     head1 c' = None -> stream1 c' = []) /\
    ((head2 c = None -> stream2 c = []) ->
     head2 c' = None -> stream2 c' = []).
Proof.
  induction 1 as [c|h1 s1 h2 s2 out c _ _ _ _ IH|h1 s1 h2 s2 out c _ _ _ _ IH].
  - exists [], []. simpl. repeat split; auto; reflexivity.
  - destruct IH as (p1 & p2 & H1 & H2 & S1 & S2 & HP & W1 & W2).
    simpl in *. exists (h1 :: p1), p2. simpl.
    rewrite fetch_unread in H1.
    split; [now rewrite H1|]. split; [exact H2|].
    split; [now apply sublist_skip|]. split; [now apply sublist_cons|].
    split; [now rewrite HP|].
    split; intros _; [apply W1, fetch_spent|now apply W2].
  - destruct IH as (p1 & p2 & H1 & H2 & S1 & S2 & HP & W1 & W2).
    simpl in *. exists p1, (h2 :: p2). simpl.
    rewrite fetch_unread in H2.
    split; [exact H1|]. split; [now rewrite H2|].
    split; [now apply sublist_cons|]. split; [now apply sublist_skip|].
    split; [rewrite HP; apply Permutation_middle|].
    split; intros _; [now apply W1|apply W2, fetch_spent].
Qed.

(** The tail of the generator for one input: it yields the head and the
    rest when the head is truthy, and otherwise drops the head, if there is
    one, and leaves the rest unread. *)
Lemma flush_split (h : option T) (s : list T) :
  (h = None -> s = []) ->
  exists d,
    option_list h ++ s = fst (flush truthy h s) ++ d ++ snd (flush truthy h s) /\
    Forall (fun x => truthy x = false) d /\
    List.length d <= 1 /\
    (d = [] -> snd (flush truthy h s) = []).
Proof.
  intros W. destruct h as [x|]; simpl.
  - destruct (truthy x) eqn:Hx; simpl.
    + exists []. simpl. rewrite app_nil_r. repeat split; auto.
    + exists [x]. simpl. repeat split; auto. discriminate.
  - exists []. simpl. repeat split; auto.
Qed.

(** X16. Whatever the comparison and the items, the generator yields items
    of the inputs only, each as often as it took it, and those of each
    input in the order they have there: what is yielded is made of a
    leading part [p1] of the first input and a leading part [p2] of the
    second. When the generator ends normally, an input is the part yielded,
    then at most one falsy item that was read and dropped, then the items
    left unread, and items are left unread only behind a dropped one. When
    the comparison raises, it does so on the two items that follow the
    yielded parts in their inputs. *)
Theorem merge_streams_conserves (A B : list T) :
  let out := fst (merge_streams truthy comparison A B) in
  exists p1 p2,
    p1 `sublist_of` out /\ p2 `sublist_of` out /\ out ≡ₚ p1 ++ p2 /\
    match snd (merge_streams truthy comparison A B) with
    | Finished r1 r2 =>
        exists d1 d2,
          A = p1 ++ d1 ++ r1 /\ B = p2 ++ d2 ++ r2 /\
          Forall (fun x => truthy x = false) (d1 ++ d2) /\
          List.length d1 <= 1 /\ List.length d2 <= 1 /\
          (d1 = [] -> r1 = []) /\ (d2 = [] -> r2 = [])
    | Raised e =>
        exists a r1 b r2,
          A = p1 ++ a :: r1 /\ B = p2 ++ b :: r2 /\
          truthy a = true /\ truthy b = true /\ comparison a b = inl e
    end.
Proof.
  cbv zeta. rewrite merge_streams_enter. unfold Merge.merge_from.
  pose proof (merge_loop_reaches truthy comparison
                (head1 (enter A B)) (stream1 (enter A B))
                (head2 (enter A B)) (stream2 (enter A B))) as Hr.
  destruct (Merge.merge_loop truthy comparison _ _ _ _)
    as [out [h1 s1 h2 s2|e]].
  - destruct Hr as [Hr _].
    apply reaches_conserves in Hr
      as (p1 & p2 & H1 & H2 & S1 & S2 & HP & W1 & W2).
    simpl in H1, H2, W1, W2. rewrite fetch_unread in H1, H2.
    specialize (W1 (fetch_spent A)). specialize (W2 (fetch_spent B)).
    destruct (flush_split h1 s1 W1) as (d1 & E1 & F1 & L1 & R1).
    destruct (flush_split h2 s2 W2) as (d2 & E2 & F2 & L2 & R2).
    destruct (flush truthy h1 s1) as [out1 rest1].
    destruct (flush truthy h2 s2) as [out2 rest2].
    simpl in *. exists (p1 ++ out1), (p2 ++ out2). repeat split.
    + apply sublist_app; [exact S1|]. now apply sublist_inserts_r.
    + apply sublist_app; [exact S2|]. now apply sublist_inserts_l.
    + rewrite HP, <- !app_assoc. apply Permutation_app_head.
      rewrite !app_assoc. apply Permutation_app_tail, Permutation_app_comm.
    + exists d1, d2. rewrite <- !app_assoc, <- E1, <- E2.
      repeat split; try assumption. now apply Forall_app.
  - destruct Hr as (a & r1 & b & r2 & Hr & Ha & Hb & Hc).
    apply reaches_conserves in Hr
      as (p1 & p2 & H1 & H2 & S1 & S2 & HP & _).
    simpl in H1, H2. rewrite fetch_unread in H1, H2.
    simpl. exists p1, p2. repeat split; try assumption.
    now exists a, r1, b, r2.
Qed.

End Conservation.

(** The loop needs the comparison on pairs of an item of the first input
    and an item of the second only. *)
Lemma merge_loop_agree (c1 c2 : T -> T -> E + bool) h1 s1 h2 s2 :
  (forall a b, a ∈ option_list h1 ++ s1 -> b ∈ option_list h2 ++ s2 ->
               c1 a b = c2 a b) ->
  merge_loop truthy c1 h1 s1 h2 s2 = merge_loop truthy c2 h1 s1 h2 s2.
Proof.
  remember (List.length s1 + List.length s2) as n eqn:Hn.
  revert h1 s1 h2 s2 Hn.
  induction n as [n IH] using lt_wf_ind. intros h1 s1 h2 s2 -> Hag.
  assert (Hexit : forall h1 s1 h2 s2,
             is_true truthy h1 && is_true truthy h2 = false ->
             merge_loop truthy c1 h1 s1 h2 s2 = merge_loop truthy c2 h1 s1 h2 s2).
  { intros a s b s' Hf.
    now rewrite (merge_loop_exit truthy c1), (merge_loop_exit truthy c2). }
  destruct h1 as [x|], h2 as [y|];
    try (apply Hexit; simpl; now rewrite ?andb_false_r).
  rewrite (merge_loop_step truthy c1), (merge_loop_step truthy c2).
  destruct (truthy x && truthy y); [|reflexivity].
  rewrite <- (Hag x y) by (simpl; left).
  destruct (c1 x y) as [e|[|]]; [reflexivity| |].
  - f_equal. destruct s1 as [|a s1]; simpl fetch; simpl fst; simpl snd.
    + now apply Hexit.
    + eapply IH; [|reflexivity|]; [simpl; lia|].
      intros a' b' Ha Hb. apply Hag; [|exact Hb]. simpl in *. now right.
  - f_equal. destruct s2 as [|b s2]; simpl fetch; simpl fst; simpl snd.
    + apply Hexit. simpl. apply andb_false_r.
    + eapply IH; [|reflexivity|]; [simpl; lia|].
      intros a' b' Ha Hb. apply Hag; [exact Ha|]. simpl in *. now right.
Qed.

Lemma merge_streams_agree (c1 c2 : T -> T -> E + bool) (A B : list T) :
  (forall a b, a ∈ A -> b ∈ B -> c1 a b = c2 a b) ->
  merge_streams truthy c1 A B = merge_streams truthy c2 A B.
Proof.
  intros Hag. rewrite !merge_streams_enter. unfold Merge.merge_from.
  rewrite (merge_loop_agree c1 c2); [reflexivity|].
  simpl. rewrite !fetch_unread. exact Hag.
Qed.

Lemma Sorted_among (R R' : T -> T -> Prop) (P : T -> Prop) (l : list T) :
  (forall x y, P x -> P y -> R x y -> R' x y) ->
  Forall P l -> Sorted R l -> Sorted R' l.
Proof.
  intros Himp HP HS. induction HS as [|x l _ IH Hd]; [constructor|].
  pose proof (Forall_inv HP) as Hx. apply Forall_inv_tail in HP.
  constructor; [now apply IH|].
  destruct Hd as [|y l Hxy]; constructor.
  apply Himp; [exact Hx| |exact Hxy]. now apply Forall_inv in HP.
Qed.

End MergeMore.

Section MergeDefault.
Import Merge.

Local Abbreviation has_id := (fun x : gmap string Z => is_Some (x !! "id"%string)).
Local Abbreviation id_le := (fun x y : gmap string Z => by_id x y = inr true).

(** X17. With the default comparison, two streams of records that all
    carry an id, each sorted by id, are merged into one stream sorted by id
    that holds every record of both, each once: no record is falsy, the
    comparison never raises, and both inputs are read to the end. *)
Theorem merge_streams_by_id_sorted (A B : list (gmap string Z)) :
  Forall has_id A -> Forall has_id B ->
  Sorted id_le A -> Sorted id_le B ->
  exists out,
    merge_streams record_truthy by_id A B = (out, Finished [] []) /\
    Sorted id_le out /\
    out ≡ₚ A ++ B.
Proof.
  intros IA IB SA SB.
  set (cmp := fun x y : gmap string Z =>
                match by_id x y with inr b => b | inl _ => true end).
  assert (Hag : forall a b, has_id a -> has_id b -> by_id a b = inr (cmp a b)).
  { intros a b [i Hi] [j Hj]. unfold cmp, by_id. now rewrite Hi, Hj. }
  assert (Htr : forall l, Forall has_id l ->
                          Forall (fun x => record_truthy x = true) l).
  { intros l Hl. rewrite Forall_forall in Hl. apply Forall_forall.
    intros x Hx. destruct (Hl x Hx) as [i Hi]. unfold record_truthy.
    rewrite bool_decide_eq_false_2; [reflexivity|].
    intros ->. now rewrite lookup_empty in Hi. }
  assert (Hto : forall a b, cmp a b = true \/ cmp b a = true).
  { intros a b. unfold cmp, by_id.
    destruct (a !! "id"%string) as [i|], (b !! "id"%string) as [j|]; auto.
    destruct (Z.leb_spec i j); [now left|right].
    apply Z.leb_le. lia. }
  rewrite (merge_streams_agree record_truthy by_id
             (fun a b => inr (cmp a b)) A B).
  2:{ intros a b Ha Hb. apply Hag.
      - rewrite Forall_forall in IA. now apply IA.
      - rewrite Forall_forall in IB. now apply IB. }
  destruct (merge_streams_merged (E:=string) record_truthy cmp A B Hto
              (Htr A IA) (Htr B IB)) as (out & Ho & Hp & Hs).
  exists out. split; [exact Ho|]. split; [|exact Hp].
  destruct Hs as [So _].
  - revert SA. apply Sorted_among with (P := fun _ => True); auto.
    + intros x y _ _ Hxy. unfold cmp. now rewrite Hxy.
    + now apply Forall_forall.
  - revert SB. apply Sorted_among with (P := fun _ => True); auto.
    + intros x y _ _ Hxy. unfold cmp. now rewrite Hxy.
    + now apply Forall_forall.
  - revert So. apply Sorted_among with (P := has_id).
    + intros x y Hx Hy Hxy. now rewrite Hag, Hxy.
    + rewrite Hp. now apply Forall_app.
Qed.

End MergeDefault.

(** ** stream_fs *)

Section StreamFsFacts.
Import StreamFs.

Lemma node_nested_ind (P : node -> Prop) :
  P File -> P Locked ->
  (forall target, P target -> P (Link target)) ->
  (forall entries, Forall (fun e => P (snd e)) entries -> P (Dir entries)) ->
  forall n, P n.
Proof.
  intros HF HL HK HD. fix IH 1. intros [| |target|entries].
  - exact HF.
  - exact HL.
  - apply HK, IH.
  - apply HD. induction entries as [|[name child] entries IHe];
      constructor; [apply IH|exact IHe].
Qed.

Lemma flat_map_split {A B : Type} (f : A -> list B) (l : list A) pre x post :
  List.flat_map f l = pre ++ x :: post ->
  exists l1 a l2 pa qa,
    l = l1 ++ a :: l2 /\ f a = pa ++ x :: qa /\
    pre = List.flat_map f l1 ++ pa /\ post = qa ++ List.flat_map f l2.
Proof.
  revert pre. induction l as [|a l IH]; intros pre Heq; simpl in Heq.
  - now destruct pre.
  - assert (Hlater : forall k, pre = f a ++ k ->
                       List.flat_map f l = k ++ x :: post ->
                       exists l1 a0 l2 pa qa,
                         a :: l = l1 ++ a0 :: l2 /\ f a0 = pa ++ x :: qa /\
                         pre = List.flat_map f l1 ++ pa /\
                         post = qa ++ List.flat_map f l2).
    { intros k -> Hk.
      destruct (IH _ Hk) as (l1 & b & l2 & pb & qb & -> & Hb & -> & ->).
      exists (a :: l1), b, l2, pb, qb. simpl.
      now rewrite <- app_assoc. }
    apply app_eq_inv in Heq as [(k & Hfa & Hk)|(k & Hpre & Hk)].
    + destruct k as [|y k]; simpl in Hk.
      * apply (Hlater []); [now rewrite Hfa, !app_nil_r|now symmetry].
      * inversion Hk; subst y post.
        exists [], a, l, pre, k. now simpl.
    + now apply (Hlater k).
Qed.

Lemma in_names keep entries name :
  In name (names keep entries) <->
  exists child, In (name, child) entries /\ keep child = true.
Proof.
  unfold names. rewrite in_map_iff. split.
  - intros ([name' child] & <- & Hin). apply filter_In in Hin as [Hin Hk].
    now exists child.
  - intros (child & Hin & Hk). exists (name, child).
    split; [reflexivity|]. now apply filter_In.
Qed.

Lemma in_listing tag p directory subdirs files :
  In (tag, p) (listing (directory, subdirs, files)) <->
  exists name, p = path_join directory name /\
    ((tag = "d"%string /\ In name subdirs) \/ (tag = "f"%string /\ In name files)).
Proof.
  unfold listing. rewrite in_app_iff, !in_map_iff. split.
  - intros [(name & Heq & Hin)|(name & Heq & Hin)]; inversion Heq; subst;
      exists name; auto.
  - intros (name & -> & [[-> Hin]|[-> Hin]]); [left|right]; now exists name.
Qed.

(** The triples of [os.walk] below the first are those of subdirectories
    named in an earlier triple. *)
Lemma walk_parents tree :
  forall top pre directory subdirs files post,
    walk top tree = pre ++ (directory, subdirs, files) :: post ->
    directory = top \/
    exists q sd fl name,
      In (q, sd, fl) pre /\ In name sd /\ directory = path_join q name.
Proof.
  induction tree as [| |target IH|entries IH] using node_nested_ind;
    intros top pre directory subdirs files post Heq; simpl in Heq.
  - now destruct pre.
  - now destruct pre.
  - now apply (IH top pre directory subdirs files post).
  - destruct pre as [|first pre]; simpl in Heq; inversion Heq as [[Hd Hrest]].
    { now left. }
    right. subst first. clear Heq.
    apply flat_map_split in Hrest
      as (es1 & [name child] & es2 & pa & qa & -> & Hc & -> & ->).
    destruct (is_dir child && negb (islink child)) eqn:Hw;
      [|now destruct pa].
    apply andb_true_iff in Hw as [Hdir _].
    apply Forall_app in IH as [_ IH]. apply Forall_inv in IH. simpl in IH.
    destruct (IH _ _ _ _ _ _ Hc) as [->|(q & sd & fl & n & Hin & Hn & ->)].
    + exists top, (names is_dir (es1 ++ (name, child) :: es2)),
        (names (fun c => negb (is_dir c)) (es1 ++ (name, child) :: es2)), name.
      split; [now left|]. split; [|reflexivity].
      apply in_names. exists child. split; [|exact Hdir].
      apply in_elt.
    + exists q, sd, fl, n. split; [|now split].
      right. apply in_app_iff. now right.
Qed.


(** The triples of [os.walk] are those of the directories that can be
    reached. *)
Lemma walk_walked tree :
  forall top directory subdirs files,
    In (directory, subdirs, files) (walk top tree) <->
    exists chain entries,
      walked tree chain entries /\
      directory = fold_left path_join chain top /\
      subdirs = names is_dir entries /\
      files = names (fun c => negb (is_dir c)) entries.
Proof.
  intros top directory subdirs files. split.
  - revert top.
    induction tree as [| |target IH|entries IH] using node_nested_ind;
      intros top Hin; simpl in Hin; try contradiction.
    + destruct (IH top Hin) as (chain & es & Hw & Hrest).
      exists chain, es. split; [now constructor|exact Hrest].
    + destruct Hin as [Heq|Hin].
      * inversion Heq; subst. exists [], entries. repeat split. constructor.
      * apply in_flat_map in Hin as ([name child] & Hin & Hc).
        destruct (is_dir child && negb (islink child)) eqn:Hw;
          [|contradiction].
        apply andb_true_iff in Hw as [Hdir Hln].
        apply negb_true_iff in Hln.
        rewrite List.Forall_forall in IH.
        destruct (IH _ Hin _ Hc) as (chain & es & Hwk & -> & -> & ->).
        exists (name :: chain), es. repeat split.
        now apply (walked_below entries name child).
  - intros (chain & es & Hw & -> & -> & ->). revert top.
    induction Hw as [entries|target chain es _ IH
                     |entries name child chain es Hin Hdir Hln _ IH];
      intros top; simpl.
    + now left.
    + apply IH.
    + right. apply in_flat_map. exists (name, child).
      split; [exact Hin|]. rewrite Hdir, Hln. simpl. apply IH.
Qed.

(** X19. What [stream_fs] yields are the entries of the directories that
    can be reached from the root through directories that can be listed
    and are no symbolic links: a pair is yielded exactly when its path is
    the root joined with the names down to such an entry, and its tag is
    ['d'] when the entry is a directory, also one that is a symbolic link or
    cannot be listed, and ['f'] when it is not. *)
Theorem stream_fs_entries root tree tag p :
  In (tag, p) (stream_fs root tree) <->
  exists chain entries name child,
    walked tree chain entries /\ In (name, child) entries /\
    p = path_join (fold_left path_join chain root) name /\
    tag = (if is_dir child then "d" else "f")%string.
Proof.
  unfold stream_fs. rewrite in_flat_map. split.
  - intros ([[directory subdirs] files] & Hw & Hl).
    apply walk_walked in Hw as (chain & es & Hw & -> & -> & ->).
    apply in_listing in Hl as (name & -> & [[-> Hn]|[-> Hn]]);
      apply in_names in Hn as (child & Hin & Hk);
      exists chain, es, name, child; repeat split; try assumption.
    + now rewrite Hk.
    + apply negb_true_iff in Hk. now rewrite Hk.
  - intros (chain & es & name & child & Hw & Hin & -> & ->).
    exists (fold_left path_join chain root, names is_dir es,
            names (fun c => negb (is_dir c)) es).
    split.
    + apply walk_walked. now exists chain, es.
    + apply in_listing. exists name. split; [reflexivity|].
      destruct (is_dir child) eqn:Hk; [left|right]; split; try reflexivity;
        apply in_names; exists child; split; try assumption.
      now rewrite Hk.
Qed.

End StreamFsFacts.

(** ** Samples for the further properties *)

Section MoreSamples.
Import Chunker Params Retry ExecStream Parallelize Merge StreamFs.

(** Eleven items in chunks of four: two full chunks and a chunk of three. *)
Example chunker_eleven :
  chunker (seq 0 11) 4 = [[0; 1; 2; 3]; [4; 5; 6; 7]; [8; 9; 10]].
Proof. vm_compute. reflexivity. Qed.

Lemma chunker_concat_witness :
  concat (chunker (seq 0 11) 4) = seq 0 11.
Proof. apply (chunker_concat (seq 0 11) 4). lia. Defined.

Lemma chunker_sizes_witness :
  (0 < List.length [4; 5; 6; 7] /\ List.length [4; 5; 6; 7] <= 4) /\
  (S 1 < List.length (chunker (seq 0 11) 4) -> List.length [4; 5; 6; 7] = 4).
Proof. apply (chunker_sizes (seq 0 11) 4 1 [4; 5; 6; 7]). reflexivity. Defined.

Lemma chunker_length_witness :
  List.length (chunker (seq 0 11) 4) = (List.length (seq 0 11) + 4 - 1) / 4.
Proof. apply (chunker_length (seq 0 11) 4). lia. Defined.

(** Whitespace around the items goes, whitespace inside stays, and two
    commas in a row give an empty item. *)
Example list_convert_spaces :
  list_convert py_isspace (PStr " a, b c ,,d ")
  = ["a"; "b c"; EmptyString; "d"]%string.
Proof. vm_compute. reflexivity. Qed.

Lemma list_convert_join_witness :
  list_convert py_isspace (PStr (join "," ["a"; "b c"; "d"]%string))
  = ["a"; "b c"; "d"]%string.
Proof.
  apply (list_convert_join py_isspace ["a"; "b c"; "d"]%string).
  - discriminate.
  - repeat (constructor; [split; reflexivity|]). constructor.
Defined.

(** Two updates, the first under a nested key; and a text whose item has
    two equals signs. *)
Example update_convert_two :
  update_convert py_isspace record_update [] "a.b=1, c=2"
  = Returns [(["a"; "b"], "1"); (["c"], "2")]%string.
Proof. vm_compute. reflexivity. Qed.

Example update_convert_bad :
  update_convert py_isspace record_update [] "a=b=c" = Raises ValueError.
Proof. vm_compute. reflexivity. Qed.

Lemma update_convert_pairs_witness :
  Forall2 (fun item (result : list string * string) =>
             (join "." (fst result) ++ "=" ++ snd result)%string
               = strip py_isspace item /\
             count "=" (snd result) = 0 /\
             Forall (fun part => count "." part = 0) (fst result))
          (split "," "a.b=1, c=2")
          [(["a"; "b"], "1"); (["c"], "2")]%string.
Proof.
  apply (update_convert_pairs py_isspace (X:=unit) "a.b=1, c=2"
           [(["a"; "b"], "1"); (["c"], "2")]%string).
  reflexivity.
Defined.

Lemma backoff_bounds_witness :
  (0 < backoff 2)%Q /\ (backoff 2 <= 4)%Q /\
  (backoff 2 <= backoff 5)%Q /\
  ((3 <= 2)%Z -> (backoff 2 == 4)%Q).
Proof. apply (backoff_bounds 2 5); lia. Defined.


Local Abbreviation exec_stream_of := (exec_stream (L:=bucket) path_truthy upload).

Lemma exec_loop_sync_raise_witness :
  let st := on_entry (Op:=string) (L:=bucket) 10%Q 10 in
  let st1 := log (Consumed true)
               (with_limiter (snd (consume (limiter st) (now st))) st) in
  let st2 := log (Called "locked"%string)
               (pull (Some "locked"%string) (hd idle []) st1) in
  let r := exec_loop (L:=bucket) path_truthy upload (fun _ => true) 10%Q
             ["locked"; "a"]%string [] st in
  yielded r = [] /\ how r = Failed "PermissionError"%string /\
  unread r = ["a"%string] /\ snapshots r = [] /\
  final r = st2 /\ futures st2 = futures st1 /\ issued st2 = issued st1.
Proof.
  apply (exec_loop_sync_raise (L:=bucket) path_truthy upload (fun _ => true) 10%Q
           "locked"%string ["a"%string] []
           (on_entry (Op:=string) (L:=bucket) 10%Q 10) []).
  - reflexivity.
  - reflexivity.
  - reflexivity.
  - reflexivity.
Defined.

(** The manifest is uploaded on the control thread, between two pooled
    uploads; its pair comes out before theirs. *)
Example exec_stream_manifest :
  yielded (exec_stream_of is_manifest 10%Q ["a"; "manifest"; "bb"]%string 10 [])
  = [("manifest", 8); ("bb", 2); ("a", 1)]%string.
Proof. vm_compute. reflexivity. Qed.


(** The results of [parallelize] stop before the path that cannot be
    read. *)
Example parallelize_locked :
  parallelize upload ["a"; "bb"; "locked"; "ccc"]%string 10
  = ([1; 2], Failed "PermissionError"%string).
Proof. vm_compute. reflexivity. Qed.


(** A falsy record in the middle of the first stream: it is dropped, and
    the records behind it are left unread. *)
Example merge_streams_drops :
  merge_streams record_truthy by_id [with_id 1; ∅; with_id 5] [with_id 2]
  = ([with_id 1; with_id 2], Finished [with_id 5] []).
Proof. vm_compute. reflexivity. Qed.

Lemma merge_streams_by_id_sorted_witness :
  exists out,
    merge_streams record_truthy by_id [with_id 1; with_id 3] [with_id 2]
      = (out, Finished [] []) /\
    Sorted (fun x y => by_id x y = inr true) out /\
    out ≡ₚ [with_id 1; with_id 3] ++ [with_id 2].
Proof.
  apply (merge_streams_by_id_sorted [with_id 1; with_id 3] [with_id 2]).
  - repeat (constructor; [eexists; reflexivity|]). constructor.
  - repeat (constructor; [eexists; reflexivity|]). constructor.
  - constructor; [constructor; constructor|]. constructor. reflexivity.
  - constructor; constructor.
Defined.

(** The tree [project] under the root [up]: the folder [shots] is yielded
    before what is in it; the link [latest] and the folder [private], which
    cannot be listed, are yielded as folders, and nothing below them. *)
Example stream_fs_project :
  stream_fs "up" project
  = [("d", "up/shots"); ("d", "up/latest"); ("d", "up/private");
     ("f", "up/notes.txt");
     ("d", "up/shots/old"); ("f", "up/shots/a.mov");
     ("f", "up/shots/old/b.mov")]%string.
Proof. vm_compute. reflexivity. Qed.


End MoreSamples.
